(** * LinearAllocator: a bump-pointer arena over a chain of pages

    Shallow embedding of
    [Source/WebCore/platform/graphics/android/utils/LinearAllocator.cpp].

    The target is 32-bit Android (the source itself casts [this] to
    [unsigned]): [size_t], [unsigned] and data pointers are 32-bit words,
    [int] is their two's-complement reading, and [sizeof(Page)] is the size
    of the single pointer field [m_nextPage].  Addresses are numbers in a
    flat address space; arithmetic on them wraps like the machine's. *)

From stdpp Require Import gmap list.

Open Scope Z_scope.

(** ** Machine words *)

Definition modulus : Z := 2 ^ 32.

(** Value of an unsigned 32-bit word ([size_t], [unsigned], [char*]). *)
Definition wrap (z : Z) : Z := z mod modulus.

(** Value of a word read as [int]. *)
Definition to_int (z : Z) : Z :=
  let u := wrap z in if u <? 2 ^ 31 then u else u - modulus.

(** ** Constants of the source *)

Definition TARGET_PAGE_SIZE : Z := 16384.
Definition MIN_OBJECT_COUNT : Z := 4.

(** [sizeof(LinearAllocator::Page)]: the class holds one pointer. *)
Definition sizeofPage : Z := 4.

(** ** Data *)

(** Modelled from the spec: the class declaration ([LinearAllocator.h]) is
    not among the sources.  The fields are the attributes of the Arena in
    the data model of the specification ([pageSize], [maxAllocSize],
    [next], [currentPage], [pages]) under the names the source gives them;
    the two sizes are [size_t], the others pointers, null being [0]. *)
Record LinearAllocator := mkLinearAllocator {
  m_pageSize : Z;
  m_maxAllocSize : Z;
  m_next : Z;
  m_currentPage : Z;
  m_pages : Z
}.

(** The [Page] objects constructed so far, keyed by their address; the value
    is the object's only field, [m_nextPage]. *)
Abbreviation PageMem := (gmap Z Z).

(** Messages sent to the log. *)
Inductive diag :=
| AllocationTooLarge (size maxSize : Z).

Definition with_next (v : Z) (a : LinearAllocator) : LinearAllocator :=
  mkLinearAllocator (m_pageSize a) (m_maxAllocSize a) v (m_currentPage a) (m_pages a).

Definition with_currentPage (v : Z) (a : LinearAllocator) : LinearAllocator :=
  mkLinearAllocator (m_pageSize a) (m_maxAllocSize a) (m_next a) v (m_pages a).

Definition with_pages (v : Z) (a : LinearAllocator) : LinearAllocator :=
  mkLinearAllocator (m_pageSize a) (m_maxAllocSize a) (m_next a) (m_currentPage a) v.

(** ** class Page *)

(** [Page()] run at address [p]: the object now exists, [m_nextPage = 0]. *)
Definition Page_new (p : Z) (mem : PageMem) : PageMem := <[p := 0]> mem.

(** [p->next()]; reading through a pointer to no page has no result. *)
Definition Page_next (p : Z) (mem : PageMem) : option Z := mem !! p.

(** [p->setNext(next)]. *)
Definition Page_setNext (p next : Z) (mem : PageMem) : PageMem := <[p := next]> mem.

(** ** The constructor *)

Definition LinearAllocator_new (averageAllocSize : Z) : LinearAllocator :=
  let pageSize :=
    if averageAllocSize =? 0 then TARGET_PAGE_SIZE
    else
      let usable_page_size := to_int (TARGET_PAGE_SIZE - sizeofPage) in
      (* int / size_t is an unsigned division *)
      let pcount := to_int (wrap usable_page_size / averageAllocSize) in
      let pcount := if pcount <? MIN_OBJECT_COUNT then MIN_OBJECT_COUNT else pcount in
      (* int * size_t + size_t, all in size_t *)
      wrap (wrap (wrap pcount * averageAllocSize) + sizeofPage) in
  {| m_pageSize := pageSize;
     m_maxAllocSize := wrap (pageSize - sizeofPage);
     m_next := 0;
     m_currentPage := 0;
     m_pages := 0 |}.

(** ** start, end *)

Definition start (p : Z) : Z := wrap (p + sizeofPage).

Definition end_ (a : LinearAllocator) (p : Z) : Z := wrap (p + m_pageSize a).

(** ** newPage

    [buf] is what [malloc(m_pageSize)] returns.  The placement [new] writes
    the header through it, so a null [buf] is a fault.  [LOG_NDEBUG] is 1:
    [ADD_ALLOCATION] expands to nothing. *)
Definition newPage (a : LinearAllocator) (mem : PageMem) (buf : Z)
  : option (Z * PageMem) :=
  if buf =? 0 then None else Some (buf, Page_new buf mem).

(** ** ensureNext *)

Definition ensureNext (a : LinearAllocator) (mem : PageMem) (size buf : Z)
  : option (LinearAllocator * PageMem) :=
  if negb (m_next a =? 0) && (wrap (m_next a + size) <=? end_ a (m_currentPage a))
  then Some (a, mem)
  else
    match newPage a mem buf with
    | None => None
    | Some (p, mem) =>
        let mem := if m_currentPage a =? 0 then mem
                   else Page_setNext (m_currentPage a) p mem in
        let a := with_currentPage p a in
        let a := if m_pages a =? 0 then with_pages (m_currentPage a) a else a in
        Some (with_next (start (m_currentPage a)) a, mem)
    end.

(** ** memusage

    The loop follows [m_nextPage] from [m_pages].  A chain that visits more
    pages than exist is cyclic, and the loop of the source never ends: no
    result.  The accumulator is an [unsigned]. *)
Fixpoint memusage_loop (fuel : nat) (pageSize : Z) (mem : PageMem) (p acc : Z)
  : option Z :=
  if p =? 0 then Some acc
  else
    match fuel with
    | O => None
    | S fuel =>
        match Page_next p mem with
        | None => None
        | Some nx => memusage_loop fuel pageSize mem nx (wrap (acc + pageSize))
        end
    end.

Definition memusage (a : LinearAllocator) (mem : PageMem) : option Z :=
  memusage_loop (size mem) (m_pageSize a) mem (m_pages a) 0.

(** ** alloc

    The result is the returned pointer, what was logged, and the state
    after the call. *)
Definition alloc (a : LinearAllocator) (mem : PageMem) (size buf : Z)
  : option (Z * list diag * LinearAllocator * PageMem) :=
  if m_maxAllocSize a <? size
  then Some (0, [AllocationTooLarge size (m_maxAllocSize a)], a, mem)
  else
    match ensureNext a mem size buf with
    | None => None
    | Some (a, mem) =>
        let ptr := m_next a in
        Some (ptr, [], with_next (wrap (m_next a + size)) a, mem)
    end.

(** ** rewindTo *)

Definition rewindTo (a : LinearAllocator) (ptr : Z) : LinearAllocator :=
  if (start (m_currentPage a) <=? ptr) && (ptr <? end_ a (m_currentPage a))
  then with_next ptr a
  else a.

(** ** The public interface as operations on a state *)

Inductive op :=
| Alloc (size buf : Z)
| RewindTo (ptr : Z)
| Memusage.

Inductive ret :=
| RPtr (p : Z)
| RVoid
| RSize (n : Z).

Definition exec (o : op) (a : LinearAllocator) (mem : PageMem)
  : option (ret * list diag * LinearAllocator * PageMem) :=
  match o with
  | Alloc size buf =>
      match alloc a mem size buf with
      | None => None
      | Some (ptr, d, a, mem) => Some (RPtr ptr, d, a, mem)
      end
  | RewindTo ptr => Some (RVoid, [], rewindTo a ptr, mem)
  | Memusage =>
      match memusage a mem with
      | None => None
      | Some n => Some (RSize n, [], a, mem)
      end
  end.

(** * Well-formed arenas *)

(** [chain mem p ps]: following [m_nextPage] from [p] visits exactly the
    pages [ps], in this order, and then reaches the null pointer. *)
Fixpoint chain (mem : PageMem) (p : Z) (ps : list Z) : Prop :=
  match ps with
  | [] => p = 0
  | q :: ps => p = q /\ q <> 0 /\ exists nx, mem !! q = Some nx /\ chain mem nx ps
  end.

(** The block of [m_pageSize] bytes at [p] is a real block: it is not at
    the null address, and bumping a cursor of this page by an admissible
    size stays inside the address space. *)
Definition block_ok (a : LinearAllocator) (p : Z) : Prop :=
  0 < p /\ p + m_pageSize a + m_maxAllocSize a < modulus.

(** The blocks at [p] and [q] share no byte. *)
Definition apart (pageSize p q : Z) : Prop :=
  p + pageSize <= q \/ q + pageSize <= p.

Fixpoint blocks_apart (pageSize : Z) (ps : list Z) : Prop :=
  match ps with
  | [] => True
  | p :: ps => Forall (apart pageSize p) ps /\ blocks_apart pageSize ps
  end.

(** What a successful [malloc(m_pageSize)] gives: a real block that shares
    no byte with the pages already held. *)
Definition malloc_ok (a : LinearAllocator) (mem : PageMem) (buf : Z) : Prop :=
  block_ok a buf /\ forall q, is_Some (mem !! q) -> apart (m_pageSize a) buf q.

(** [next], when non-null, lies within [start(currentPage), end(currentPage)]. *)
Definition cursor_in_page (a : LinearAllocator) : Prop :=
  m_next a <> 0 ->
  start (m_currentPage a) <= m_next a <= end_ a (m_currentPage a).

(** [currentPage] is the last page of the chain that starts at [pages]. *)
Definition current_is_last (a : LinearAllocator) (mem : PageMem) (ps : list Z) : Prop :=
  chain mem (m_pages a) ps /\ m_currentPage a = default 0 (last ps).

(** [wf a mem ps]: the arena [a] with the page headers [mem] is well
    formed, and [ps] are its pages in the order of the chain. *)
Record wf (a : LinearAllocator) (mem : PageMem) (ps : list Z) : Prop := mkWf {
  (* a page has room for its header *)
  wf_header : sizeofPage <= m_pageSize a;
  (* the usable range of a page is [maxAllocSize] bytes long *)
  wf_max : m_maxAllocSize a = m_pageSize a - sizeofPage;
  (* a cursor in the range computed from a null page pointer can be bumped *)
  wf_bump : m_pageSize a + m_maxAllocSize a < modulus;
  (* the chain from [m_pages] is [ps], and it ends at [m_currentPage] *)
  wf_last : current_is_last a mem ps;
  (* the pages of the chain are the [Page] objects constructed *)
  wf_dom : forall p, is_Some (mem !! p) <-> p ∈ ps;
  (* every page is a real block, and no two share a byte *)
  wf_blocks : Forall (block_ok a) ps;
  wf_apart : blocks_apart (m_pageSize a) ps;
  (* the cursor is a pointer, and within the current page when non-null *)
  wf_next_word : 0 <= m_next a < modulus;
  wf_cursor : cursor_in_page a
}.

(** The cursor is null exactly as long as there is no page. *)
Definition anchored (a : LinearAllocator) : Prop :=
  m_currentPage a = 0 <-> m_next a = 0.

(** The request fits the space left in the current page (in plain
    arithmetic, without the wrap-around of the machine). *)
Definition fits (a : LinearAllocator) (size : Z) : Prop :=
  m_next a <> 0 /\ m_next a + size <= m_currentPage a + m_pageSize a.

(** * Regions handed out to the caller *)

(** A region is the pointer [alloc] returned and the size asked for. *)
Definition region : Type := Z * Z.

Definition overlap (r s : region) : Prop :=
  r.1 < s.1 + s.2 /\ s.1 < r.1 + r.2.

(** The region lies in the usable range of the page at [p]. *)
Definition in_page (a : LinearAllocator) (p : Z) (r : region) : Prop :=
  p + sizeofPage <= r.1 /\ r.1 + r.2 <= p + m_pageSize a.

(** A region of the current page that reaches beyond [ptr] is given up when
    the cursor is taken back to [ptr]. *)
Definition abandoned (a : LinearAllocator) (ptr : Z) (r : region) : bool :=
  (m_currentPage a + sizeofPage <=? r.1)
  && (r.1 + r.2 <=? m_currentPage a + m_pageSize a)
  && (ptr <? r.1 + r.2).

(** The regions still in use after [rewindTo(ptr)]. *)
Definition live_after_rewind (a : LinearAllocator) (ptr : Z) (live : list region)
  : list region :=
  if (start (m_currentPage a) <=? ptr) && (ptr <? end_ a (m_currentPage a))
  then filter (fun r => abandoned a ptr r = false) live
  else live.

(** Every region in use lies in a page of the arena, and below the cursor
    when that page is the current one. *)
Definition live_ok (a : LinearAllocator) (mem : PageMem) (live : list region) : Prop :=
  Forall (fun r => exists p, is_Some (mem !! p) /\ in_page a p r /\
                             (p = m_currentPage a -> r.1 + r.2 <= m_next a)) live.

(** * Reachable states

    [reach a mem live]: the arena [a] with page headers [mem] results from
    the constructor and calls of [alloc] and [rewindTo] ([memusage] changes
    nothing), and [live] are the regions returned by the successful calls of
    [alloc] and not given up by a later [rewindTo].  The assumptions on the
    environment: the constructed arena is well formed, every [malloc]
    succeeds, and [rewindTo] is not used to move the cursor before the first
    page exists. *)
Inductive reach : LinearAllocator -> PageMem -> list region -> Prop :=
| reach_new averageAllocSize :
    wf (LinearAllocator_new averageAllocSize) ∅ [] ->
    reach (LinearAllocator_new averageAllocSize) ∅ []
| reach_alloc a mem live size buf ptr d a' mem' :
    reach a mem live ->
    0 <= size < modulus ->
    malloc_ok a mem buf ->
    alloc a mem size buf = Some (ptr, d, a', mem') ->
    reach a' mem' (if ptr =? 0 then live else (ptr, size) :: live)
| reach_rewindTo a mem live ptr :
    reach a mem live ->
    m_pages a <> 0 \/ rewindTo a ptr = a ->
    reach (rewindTo a ptr) mem (live_after_rewind a ptr live).

(** * Runs of successful allocations

    [alloc_run a mem log]: the state results from the constructor and
    successful calls of [alloc] only; [log] records, for each call, the page
    the bytes were carved from and their number. *)
Inductive alloc_run : LinearAllocator -> PageMem -> list (Z * Z) -> Prop :=
| run_new averageAllocSize :
    wf (LinearAllocator_new averageAllocSize) ∅ [] ->
    alloc_run (LinearAllocator_new averageAllocSize) ∅ []
| run_alloc a mem log size buf ptr d a' mem' :
    alloc_run a mem log ->
    0 <= size < modulus ->
    malloc_ok a mem buf ->
    alloc a mem size buf = Some (ptr, d, a', mem') ->
    ptr <> 0 ->
    alloc_run a' mem' ((m_currentPage a', size) :: log).

(** Bytes carved out of the page at [p]. *)
Fixpoint carved (log : list (Z * Z)) (p : Z) : Z :=
  match log with
  | [] => 0
  | (q, size) :: log => (if q =? p then size else 0) + carved log p
  end.

(** [allocs a mem a' mem']: a sequence of calls of [alloc], each served by a
    successful [malloc], leads from the first state to the second. *)
Inductive allocs : LinearAllocator -> PageMem -> LinearAllocator -> PageMem -> Prop :=
| allocs_nil a mem : allocs a mem a mem
| allocs_step a mem size buf ptr d a1 mem1 a2 mem2 :
    0 <= size < modulus ->
    malloc_ok a mem buf ->
    alloc a mem size buf = Some (ptr, d, a1, mem1) ->
    allocs a1 mem1 a2 mem2 ->
    allocs a mem a2 mem2.

(** The environment of one operation: a call of [alloc] passes a [size_t]
    and is served by a successful [malloc]. *)
Definition op_env (a : LinearAllocator) (mem : PageMem) (o : op) : Prop :=
  match o with
  | Alloc size buf => 0 <= size < modulus /\ malloc_ok a mem buf
  | RewindTo _ => True
  | Memusage => True
  end.

(** The page size the constructor aims at, in plain arithmetic. *)
Definition ideal_pageSize (averageAllocSize : Z) : Z :=
  if averageAllocSize =? 0 then TARGET_PAGE_SIZE
  else
    Z.max MIN_OBJECT_COUNT ((TARGET_PAGE_SIZE - sizeofPage) / averageAllocSize)
    * averageAllocSize + sizeofPage.

(** * A concrete arena

    The default arena after [alloc(100)], with its only page at address
    [65536]. *)
Definition example_arena : LinearAllocator :=
  mkLinearAllocator 16384 16380 65640 65536 65536.

Definition example_mem : PageMem := {[65536 := 0]}.

(** * The rest of the class *)

(** ** Page::start, Page::end

    The two methods of [Page] work on [unsigned]: [this] is cast to it, and
    the [int] argument of [end] is converted to it by the addition. *)
Definition Page_start (p : Z) : Z := wrap (wrap p + sizeofPage).

Definition Page_end (p : Z) (pageSize : Z) : Z :=
  wrap (wrap (Page_start p) + wrap pageSize).

(** ** The destructor

    [delete p]: the [Page] object at [p] is gone, and reading its field
    afterwards has no result. *)
Definition Page_delete (p : Z) (mem : PageMem) : PageMem := delete p mem.

(** The loop of the destructor.  [freed] lists the blocks given back so
    far, in the order of the calls of [delete].  [RM_ALLOCATION] expands to
    nothing.  As for [memusage], a walk longer than the number of pages has
    no result. *)
Fixpoint destructor_loop (fuel : nat) (mem : PageMem) (p : Z) (freed : list Z)
  : option (list Z * PageMem) :=
  if p =? 0 then Some (freed, mem)
  else
    match fuel with
    | O => None
    | S fuel =>
        match Page_next p mem with
        | None => None
        | Some next => destructor_loop fuel (Page_delete p mem) next (freed ++ [p])
        end
    end.

Definition LinearAllocator_destroy (a : LinearAllocator) (mem : PageMem)
  : option (list Z * PageMem) :=
  destructor_loop (size mem) mem (m_pages a) [].

(** Bytes handed out by the calls of a log. *)
Fixpoint handed_out (log : list (Z * Z)) : Z :=
  match log with
  | [] => 0
  | (_, size) :: log => size + handed_out log
  end.

(** The block of [m_pageSize] bytes at [q] and the region [r] share a byte. *)
Definition touches_block (a : LinearAllocator) (q : Z) (r : region) : Prop :=
  q < r.1 + r.2 /\ r.1 < q + m_pageSize a.

(** The concrete arena after a further [alloc(16300)], which did not fit
    the first page: a second page at address [131072]. *)
Definition example_arena2 : LinearAllocator :=
  mkLinearAllocator 16384 16380 147376 131072 65536.

Definition example_mem2 : PageMem := {[65536 := 131072; 131072 := 0]}.

(** * The current page as a page of the arena *)

(** [ptr] lies in the usable range of the current page: there is a current
    page, and [ptr] is at or after its usable start and before its end. *)
Definition in_current_page (a : LinearAllocator) (ptr : Z) : Prop :=
  m_currentPage a <> 0 /\
  m_currentPage a + sizeofPage <= ptr < m_currentPage a + m_pageSize a.

(** The invariant of the data model on the cursor: when it is non-null
    there is a current page, and the cursor lies between the usable start
    and the end of that page. *)
Definition cursor_in_current_page (a : LinearAllocator) : Prop :=
  m_next a <> 0 ->
  m_currentPage a <> 0 /\
  m_currentPage a + sizeofPage <= m_next a <= m_currentPage a + m_pageSize a.

(** * Words *)

Lemma modulus_eq : modulus = 4294967296.
Proof. reflexivity. Qed.

Lemma wrap_small z : 0 <= z < modulus -> wrap z = z.
Proof. intros H. unfold wrap. apply Z.mod_small, H. Qed.

Lemma wrap_range z : 0 <= wrap z < modulus.
Proof. unfold wrap. apply Z.mod_pos_bound. rewrite modulus_eq. lia. Qed.

(** * The page chain *)

Lemma chain_null mem ps : chain mem 0 ps -> ps = [].
Proof. destruct ps as [|q ps]; [done|]. intros (-> & Hq & _). done. Qed.

Lemma chain_elem_nonnull mem p ps q : chain mem p ps -> q ∈ ps -> q <> 0.
Proof.
  revert p. induction ps as [|r ps IH]; intros p Hc Hq.
  - by apply elem_of_nil in Hq.
  - destruct Hc as (-> & Hr & nx & _ & Hc).
    apply elem_of_cons in Hq as [->|Hq]; [done|]. by eapply IH.
Qed.

(** Linking a new page [q] behind the last page of a chain. *)
Lemma chain_snoc mem p ps l q :
  chain mem p ps -> NoDup ps -> last ps = Some l ->
  q <> 0 -> q ∉ ps ->
  chain (Page_setNext l q (Page_new q mem)) p (ps ++ [q]).
Proof.
  unfold Page_setNext, Page_new.
  revert p. induction ps as [|r ps IH]; intros p Hc Hnd Hl Hq0 Hq; [done|].
  destruct Hc as (-> & Hr & nx & Hnx & Hc).
  apply NoDup_cons in Hnd as [Hr_ps Hnd].
  apply not_elem_of_cons in Hq as [Hqr Hq].
  destruct ps as [|r' ps].
  - simpl in Hl. injection Hl as <-. simpl in Hc. subst nx. simpl.
    split; [done|]. split; [done|]. exists q. split.
    + by rewrite lookup_insert_eq.
    + split; [done|]. split; [done|]. exists 0. split; [|done].
      rewrite lookup_insert_ne; [|done]. by rewrite lookup_insert_eq.
  - rewrite last_cons_cons in Hl.
    assert (l ∈ r' :: ps) as Hlin.
    { apply last_Some in Hl as [l' ->]. apply elem_of_app. right. by left. }
    assert (r <> l) as Hrl by (intros ->; done).
    change ((r :: r' :: ps) ++ [q]) with (r :: ((r' :: ps) ++ [q])).
    split; [done|]. split; [done|]. exists nx. split.
    + rewrite lookup_insert_ne; [|done]. by rewrite lookup_insert_ne.
    + by apply IH.
Qed.

(** The loop of [memusage] on a chain, given fuel for every page. *)
Lemma memusage_loop_chain fuel pageSize mem ps : forall p acc,
  chain mem p ps -> (length ps <= fuel)%nat ->
  memusage_loop fuel pageSize mem p acc
  = Some (Nat.iter (length ps) (fun acc => wrap (acc + pageSize)) acc).
Proof.
  revert fuel. induction ps as [|q ps IH]; intros fuel p acc Hc Hlen.
  - simpl in Hc. subst p. by destruct fuel.
  - destruct Hc as (-> & Hq & nx & Hnx & Hc).
    destruct fuel as [|fuel]; [simpl in Hlen; lia|].
    simpl in Hlen. cbn [memusage_loop].
    apply Z.eqb_neq in Hq. rewrite Hq. unfold Page_next. rewrite Hnx.
    rewrite (IH fuel nx _ Hc); [|lia].
    cbn [length]. by rewrite Nat.iter_succ_r.
Qed.

Lemma iter_wrap_add n pageSize acc :
  0 <= acc -> 0 <= pageSize -> acc + pageSize * Z.of_nat n < modulus ->
  Nat.iter n (fun acc => wrap (acc + pageSize)) acc = acc + pageSize * Z.of_nat n.
Proof.
  intros Hacc Hps. induction n as [|n IH]; intros Hlt.
  - simpl. lia.
  - rewrite Nat.iter_succ, IH by nia. rewrite wrap_small by nia. lia.
Qed.

(** * Blocks that share no byte fit side by side in the address space *)

Lemma Forall_filter_keep {A} (P Q : A -> Prop) `{!forall x, Decision (Q x)} (l : list A) :
  Forall P l -> Forall P (filter Q l).
Proof.
  rewrite !Forall_forall. intros HP x Hx.
  apply list_elem_of_filter in Hx as [_ Hx]. by apply HP.
Qed.

Lemma blocks_apart_filter L (Q : Z -> Prop) `{!forall x, Decision (Q x)} ps :
  blocks_apart L ps -> blocks_apart L (filter Q ps).
Proof.
  induction ps as [|p ps IH]; [done|]. intros [Hp Hps].
  rewrite filter_cons. destruct (decide (Q p)).
  - split; [by apply Forall_filter_keep | by apply IH].
  - by apply IH.
Qed.

Lemma blocks_fit L n : forall ps lo hi,
  (length ps <= n)%nat -> 0 <= L -> lo <= hi ->
  Forall (fun p => lo <= p /\ p + L <= hi) ps ->
  blocks_apart L ps ->
  L * Z.of_nat (length ps) <= hi - lo.
Proof.
  induction n as [|n IH]; intros ps lo hi Hlen HL Hlohi Hin Hap.
  - destruct ps; [simpl; lia | simpl in Hlen; lia].
  - destruct ps as [|p ps]; [simpl; lia|].
    simpl in Hlen. destruct Hap as [Hp Hap].
    apply Forall_cons in Hin as [[Hlo Hhi] Hin].
    set (below := filter (fun q => q < p) ps).
    set (above := filter (fun q => ~ q < p) ps).
    assert (length below + length above = length ps)%nat as Hsplit.
    { rewrite <- length_app. apply Permutation_length, filter_app_complement. }
    assert (L * Z.of_nat (length below) <= p - lo) as Hb.
    { apply IH.
      - pose proof (length_filter (fun q => q < p) ps). unfold below. lia.
      - done.
      - done.
      - apply Forall_forall. intros q Hq.
        apply list_elem_of_filter in Hq as [Hqp Hq].
        rewrite Forall_forall in Hin, Hp.
        destruct (Hin q Hq) as [? _]. destruct (Hp q Hq) as [?|?]; lia.
      - by apply blocks_apart_filter. }
    assert (L * Z.of_nat (length above) <= hi - (p + L)) as Ha.
    { apply IH.
      - pose proof (length_filter (fun q => ~ q < p) ps). unfold above. lia.
      - done.
      - lia.
      - apply Forall_forall. intros q Hq.
        apply list_elem_of_filter in Hq as [Hqp Hq].
        rewrite Forall_forall in Hin, Hp.
        destruct (Hin q Hq) as [_ ?]. destruct (Hp q Hq) as [?|?]; lia.
      - by apply blocks_apart_filter. }
    cbn [length]. nia.
Qed.

Lemma blocks_apart_NoDup L ps :
  0 < L -> blocks_apart L ps -> NoDup ps.
Proof.
  intros HL. induction ps as [|p ps IH]; intros Hap; [constructor|].
  destruct Hap as [Hp Hap]. constructor; [|by apply IH].
  intros Hin. rewrite Forall_forall in Hp. destruct (Hp p Hin); lia.
Qed.

Lemma blocks_apart_snoc L ps q :
  blocks_apart L ps -> Forall (apart L q) ps -> blocks_apart L (ps ++ [q]).
Proof.
  induction ps as [|p ps IH]; intros Hap Hq; [simpl; auto|].
  destruct Hap as [Hp Hap]. apply Forall_cons in Hq as [Hqp Hq].
  simpl. split; [|by apply IH].
  apply Forall_app. split; [done|]. constructor; [|constructor].
  destruct Hqp; [right|left]; done.
Qed.

(** * Facts about well-formed arenas *)

Section WellFormed.
Context (a : LinearAllocator) (mem : PageMem) (ps : list Z).
Hypothesis Hwf : wf a mem ps.

Lemma wf_sizes : sizeofPage <= m_pageSize a < modulus /\ 0 <= m_maxAllocSize a.
Proof.
  destruct Hwf as [H1 H2 H3 _ _ _ _ _ _]. unfold sizeofPage in *. lia.
Qed.

Lemma wf_NoDup : NoDup ps.
Proof.
  apply (blocks_apart_NoDup (m_pageSize a)); [|apply Hwf].
  pose proof wf_sizes. unfold sizeofPage in *. lia.
Qed.

(** Either no page exists and every page pointer is null, or the current
    page is the last page of the chain and is a real block. *)
Lemma wf_current_cases :
  (ps = [] /\ m_currentPage a = 0 /\ m_pages a = 0) \/
  (exists l, last ps = Some l /\ m_currentPage a = l /\ l ∈ ps /\
             block_ok a l /\ m_pages a <> 0).
Proof.
  destruct Hwf as [_ _ _ [Hch Hcur] _ Hbl _ _ _].
  destruct (last ps) as [l|] eqn:Hl.
  - right. exists l. simpl in Hcur.
    assert (l ∈ ps) as Hin.
    { apply last_Some in Hl as [l' ->]. apply elem_of_app. right. by left. }
    split_and!; try done.
    + rewrite Forall_forall in Hbl. by apply Hbl.
    + intros H0. rewrite H0 in Hch. apply chain_null in Hch. by subst ps.
  - left. apply last_None in Hl. subst ps. simpl in *. done.
Qed.

Lemma wf_currentPage_range :
  0 <= m_currentPage a /\
  m_currentPage a + m_pageSize a + m_maxAllocSize a < modulus.
Proof.
  destruct wf_current_cases as [(_ & -> & _)|(l & _ & -> & _ & [H1 H2] & _)].
  - pose proof (wf_bump _ _ _ Hwf). lia.
  - lia.
Qed.

Lemma wf_start : start (m_currentPage a) = m_currentPage a + sizeofPage.
Proof.
  pose proof wf_currentPage_range. pose proof wf_sizes.
  unfold start. apply wrap_small. unfold sizeofPage in *. lia.
Qed.

Lemma wf_end : end_ a (m_currentPage a) = m_currentPage a + m_pageSize a.
Proof.
  pose proof wf_currentPage_range. pose proof wf_sizes.
  unfold end_. apply wrap_small. unfold sizeofPage in *. lia.
Qed.

(** The number of [Page] objects is the length of the chain. *)
Lemma wf_size_mem : size mem = length ps.
Proof.
  rewrite <- size_dom, <- (size_list_to_set (C := gset Z)) by apply wf_NoDup.
  f_equal. apply set_eq. intros p.
  rewrite elem_of_dom, elem_of_list_to_set. apply Hwf.
Qed.

(** The pages of the chain fit side by side below the top of the address
    space, so the sum of [memusage] does not wrap. *)
Lemma wf_pages_fit : m_pageSize a * Z.of_nat (length ps) < modulus.
Proof.
  pose proof wf_sizes as [[? ?] ?].
  assert (m_pageSize a * Z.of_nat (length ps) <= (modulus - 1) - 0); [|lia].
  apply (blocks_fit (m_pageSize a) (length ps)); try done; try lia.
  - unfold sizeofPage in *. lia.
  - eapply Forall_impl; [apply Hwf|]. intros p [? ?]. simpl. lia.
  - apply Hwf.
Qed.

Lemma wf_memusage :
  memusage a mem = Some (m_pageSize a * Z.of_nat (length ps)).
Proof.
  unfold memusage.
  rewrite (memusage_loop_chain _ _ _ ps); [|apply Hwf|by rewrite wf_size_mem].
  pose proof wf_sizes as [[? ?] ?]. pose proof wf_pages_fit.
  rewrite iter_wrap_add; unfold sizeofPage in *; try lia. done.
Qed.

(** The test at the head of [ensureNext] decides [fits]. *)
Lemma fits_test size :
  0 <= size <= m_maxAllocSize a ->
  negb (m_next a =? 0) && (wrap (m_next a + size) <=? end_ a (m_currentPage a))
  = bool_decide (fits a size).
Proof.
  intros Hsize. unfold fits. rewrite wf_end.
  destruct (Z.eqb_spec (m_next a) 0) as [H0|H0]; simpl.
  - symmetry. apply bool_decide_eq_false. intros [? _]. done.
  - pose proof (wf_cursor _ _ _ Hwf H0) as [_ Hle]. rewrite wf_end in Hle.
    pose proof (wf_next_word _ _ _ Hwf). pose proof wf_currentPage_range.
    rewrite wrap_small by lia.
    destruct (Z.leb_spec (m_next a + size) (m_currentPage a + m_pageSize a)).
    + symmetry. apply bool_decide_eq_true. done.
    + symmetry. apply bool_decide_eq_false. intros [_ ?]. lia.
Qed.

End WellFormed.

(** * alloc, case by case *)

Lemma alloc_too_large a mem size buf :
  m_maxAllocSize a < size ->
  alloc a mem size buf
  = Some (0, [AllocationTooLarge size (m_maxAllocSize a)], a, mem).
Proof.
  intros H. unfold alloc. apply Z.ltb_lt in H. by rewrite H.
Qed.

Lemma ensureNext_fits a mem ps size buf :
  wf a mem ps -> 0 <= size <= m_maxAllocSize a -> fits a size ->
  ensureNext a mem size buf = Some (a, mem).
Proof.
  intros Hwf Hsize Hfits. unfold ensureNext.
  rewrite (fits_test a mem ps Hwf) by done.
  by rewrite bool_decide_eq_true_2.
Qed.

(** Bumping the cursor inside the current page keeps the arena well formed. *)
Lemma wf_bump_cursor a mem ps size :
  wf a mem ps -> 0 <= size -> fits a size ->
  wf (with_next (m_next a + size) a) mem ps.
Proof.
  intros Hwf Hsize [Hn Hfit].
  pose proof (wf_cursor _ _ _ Hwf Hn) as [Hlo Hhi].
  pose proof (wf_currentPage_range _ _ _ Hwf) as [Hc0 Hc1].
  pose proof (wf_sizes _ _ _ Hwf) as [[? ?] ?].
  pose proof (wf_next_word _ _ _ Hwf).
  rewrite (wf_start _ _ _ Hwf) in Hlo. rewrite (wf_end _ _ _ Hwf) in Hhi.
  destruct Hwf as [W1 W2 W3 W4 W5 W6 W7 W8 W9].
  constructor; try done.
  - simpl. lia.
  - intros _. cbn [with_next m_next m_currentPage].
    change (end_ (with_next (m_next a + size) a) (m_currentPage a))
      with (end_ a (m_currentPage a)).
    unfold start, end_. rewrite !wrap_small; unfold sizeofPage in *; lia.
Qed.

Lemma alloc_fits a mem ps size buf :
  wf a mem ps -> 0 <= size <= m_maxAllocSize a -> fits a size ->
  alloc a mem size buf
  = Some (m_next a, [], with_next (m_next a + size) a, mem).
Proof.
  intros Hwf Hsize Hfits. unfold alloc.
  assert ((m_maxAllocSize a <? size) = false) as -> by (apply Z.ltb_ge; lia).
  rewrite (ensureNext_fits a mem ps) by done.
  destruct Hfits as [Hn Hfit].
  pose proof (wf_currentPage_range _ _ _ Hwf). pose proof (wf_next_word _ _ _ Hwf).
  rewrite wrap_small; [done|]. lia.
Qed.

(** The arena after [ensureNext] took a new page at [buf]. *)
Lemma ensureNext_grows a mem ps size buf :
  wf a mem ps -> 0 <= size <= m_maxAllocSize a -> ~ fits a size ->
  malloc_ok a mem buf ->
  exists a1 mem1,
    ensureNext a mem size buf = Some (a1, mem1) /\
    wf a1 mem1 (ps ++ [buf]) /\
    m_pageSize a1 = m_pageSize a /\ m_maxAllocSize a1 = m_maxAllocSize a /\
    m_currentPage a1 = buf /\ m_next a1 = buf + sizeofPage /\
    mem !! buf = None /\ mem1 !! buf = Some 0.
Proof.
  intros Hwf Hsize Hnofit [[Hb0 Hb1] Hfresh]. unfold ensureNext.
  rewrite (fits_test a mem ps Hwf) by done.
  rewrite bool_decide_eq_false_2 by done.
  pose proof (wf_sizes _ _ _ Hwf) as [[Hs0 Hs1] Hmax].
  assert (mem !! buf = None) as Hnone.
  { destruct (mem !! buf) eqn:E; [|done].
    destruct (Hfresh buf) as [?|?]; [by rewrite E| |]; unfold sizeofPage in *; lia. }
  assert (buf ∉ ps) as Hnotin.
  { intros Hin. apply (wf_dom _ _ _ Hwf) in Hin. rewrite Hnone in Hin.
    by destruct Hin. }
  assert (start buf = buf + sizeofPage) as Hstart.
  { unfold start. apply wrap_small. unfold sizeofPage in *. lia. }
  unfold newPage. assert ((buf =? 0) = false) as -> by (apply Z.eqb_neq; lia).
  destruct (wf_current_cases _ _ _ Hwf) as
    [(-> & Hcur & Hpages)|(l & Hlast & Hcur & Hlin & Hlok & Hpages)].
  - (* the first page *)
    rewrite Hcur. cbn [Z.eqb with_currentPage m_pages].
    rewrite Hpages. cbn [Z.eqb with_pages with_currentPage m_currentPage].
    eexists _, _. split; [reflexivity|].
    split_and!; try done; [|by apply lookup_insert_eq].
    destruct Hwf as [W1 W2 W3 W4 W5 W6 W7 W8 W9].
    constructor; try done.
    + split; [|done]. simpl. split_and!; [done|lia|].
      exists 0. split; [apply lookup_insert_eq|done].
    + intros p. unfold Page_new. rewrite lookup_insert_is_Some, W5. simpl.
      rewrite !elem_of_cons. split.
      * intros [->|[_ ?]]; [by left|by right].
      * intros [->|Hp]; [by left|]. by apply elem_of_nil in Hp.
    + simpl. constructor; [|constructor]. split; [done|]. done.
    + simpl. rewrite Hstart. unfold sizeofPage in *. lia.
    + intros _. simpl. unfold end_. simpl. rewrite Hstart.
      rewrite wrap_small; unfold sizeofPage in *; lia.
  - (* a page behind the current one *)
    destruct Hlok as [Hl0 Hl1].
    assert (m_currentPage a <> buf) as Hcb by congruence.
    assert ((m_currentPage a =? 0) = false) as -> by (apply Z.eqb_neq; lia).
    cbn [with_currentPage m_pages].
    assert ((m_pages a =? 0) = false) as -> by (by apply Z.eqb_neq).
    cbn [with_currentPage m_currentPage].
    eexists _, _. split; [reflexivity|].
    split_and!; try done.
    2:{ unfold Page_setNext, Page_new. rewrite lookup_insert_ne by done.
        apply lookup_insert_eq. }
    pose proof (wf_NoDup _ _ _ Hwf) as Hnd.
    destruct Hwf as [W1 W2 W3 [W4 W4'] W5 W6 W7 W8 W9].
    constructor; try done.
    + split.
      * rewrite Hcur. simpl. apply chain_snoc; try done. lia.
      * simpl. by rewrite last_snoc.
    + intros p. unfold Page_setNext, Page_new.
      rewrite !lookup_insert_is_Some, W5, elem_of_app, list_elem_of_singleton.
      split.
      * intros [E|[_ [E|[_ ?]]]]; [left; congruence|by right|by left].
      * intros [Hp| ->].
        -- destruct (decide (m_currentPage a = p)); [by left|].
           right. split; [done|]. right. split; [congruence|done].
        -- right. split; [done|]. by left.
    + apply Forall_app. split; [done|]. constructor; [|constructor]. done.
    + apply blocks_apart_snoc; [done|].
      apply Forall_forall. intros q Hq. apply Hfresh, W5, Hq.
    + simpl. rewrite Hstart. unfold sizeofPage in *. lia.
    + intros _. simpl. unfold end_. simpl. rewrite Hstart.
      rewrite wrap_small; unfold sizeofPage in *; lia.
Qed.

Lemma alloc_grows a mem ps size buf :
  wf a mem ps -> 0 <= size <= m_maxAllocSize a -> ~ fits a size ->
  malloc_ok a mem buf ->
  exists a' mem',
    alloc a mem size buf = Some (buf + sizeofPage, [], a', mem') /\
    wf a' mem' (ps ++ [buf]) /\
    m_pageSize a' = m_pageSize a /\ m_maxAllocSize a' = m_maxAllocSize a /\
    m_currentPage a' = buf /\ m_next a' = buf + sizeofPage + size /\
    mem !! buf = None /\ mem' !! buf = Some 0.
Proof.
  intros Hwf Hsize Hnofit Hok.
  destruct (ensureNext_grows a mem ps size buf Hwf Hsize Hnofit Hok)
    as (a1 & mem1 & He & Hwf1 & Hps & Hmax & Hcur & Hnext & Hnone & Hsome).
  unfold alloc.
  assert ((m_maxAllocSize a <? size) = false) as -> by (apply Z.ltb_ge; lia).
  rewrite He, Hnext.
  destruct Hok as [[Hb0 Hb1] _].
  pose proof (wf_sizes _ _ _ Hwf) as [[Hs0 Hs1] Hm].
  pose proof (wf_max _ _ _ Hwf) as Hmx.
  assert (wrap (buf + sizeofPage + size) = buf + sizeofPage + size) as ->.
  { apply wrap_small. unfold sizeofPage in *. lia. }
  eexists _, _. split; [reflexivity|].
  split_and!; try done.
  assert (fits a1 size) as Hfit1.
  { split; [rewrite Hnext; unfold sizeofPage; lia|].
    rewrite Hnext, Hcur, Hps. unfold sizeofPage in *. lia. }
  pose proof (wf_bump_cursor a1 mem1 _ size Hwf1 (proj1 Hsize) Hfit1) as Hwf'.
  by rewrite Hnext in Hwf'.
Qed.

(** Every call of [alloc] served by a successful [malloc] returns, and
    leaves a well-formed arena whose chain is the old one, with at most the
    new page behind it. *)
Lemma alloc_wf a mem ps size buf :
  wf a mem ps -> 0 <= size < modulus -> malloc_ok a mem buf ->
  exists ptr d a' mem' ps',
    alloc a mem size buf = Some (ptr, d, a', mem') /\
    wf a' mem' (ps ++ ps') /\ (ps' = [] \/ ps' = [buf]) /\
    m_pageSize a' = m_pageSize a /\ m_maxAllocSize a' = m_maxAllocSize a.
Proof.
  intros Hwf Hsize Hok.
  destruct (Z.lt_ge_cases (m_maxAllocSize a) size) as [Hbig|Hsmall].
  - exists 0, [AllocationTooLarge size (m_maxAllocSize a)], a, mem, [].
    rewrite app_nil_r. split; [by apply alloc_too_large|]. auto.
  - destruct (decide (fits a size)) as [Hfit|Hnofit].
    + exists (m_next a), [], (with_next (m_next a + size) a), mem, [].
      rewrite app_nil_r. split; [apply (alloc_fits a mem ps); [done|lia|done]|].
      split; [apply wf_bump_cursor; [done|lia|done]|]. auto.
    + destruct (alloc_grows a mem ps size buf) as (a' & mem' & Ha & Hwf' & ? & ? & _);
        [done|lia|done|done|].
      exists (buf + sizeofPage), [], a', mem', [buf]. auto.
Qed.

(** * rewindTo *)

Lemma rewindTo_cases a ptr :
  (start (m_currentPage a) <= ptr < end_ a (m_currentPage a) /\
   rewindTo a ptr = with_next ptr a) \/
  (~ start (m_currentPage a) <= ptr < end_ a (m_currentPage a) /\
   rewindTo a ptr = a).
Proof.
  unfold rewindTo.
  destruct (Z.leb_spec (start (m_currentPage a)) ptr);
    destruct (Z.ltb_spec ptr (end_ a (m_currentPage a))); simpl;
    [left|right|right|right]; split; try done; lia.
Qed.

Lemma rewindTo_wf a mem ps ptr :
  wf a mem ps -> wf (rewindTo a ptr) mem ps.
Proof.
  intros Hwf. destruct (rewindTo_cases a ptr) as [[Hin ->]|[_ ->]]; [|done].
  pose proof (wrap_range (m_currentPage a + sizeofPage)).
  pose proof (wrap_range (m_currentPage a + m_pageSize a)).
  destruct Hwf as [W1 W2 W3 W4 W5 W6 W7 W8 W9].
  constructor; try done.
  - simpl. unfold start, end_ in Hin. lia.
  - intros _. simpl.
    change (end_ (with_next ptr a) (m_currentPage a)) with (end_ a (m_currentPage a)).
    lia.
Qed.

Lemma with_next_same a : with_next (m_next a) a = a.
Proof. by destruct a. Qed.

(** * Reachable states are well formed *)

Lemma blocks_apart_pair L ps p q :
  blocks_apart L ps -> p ∈ ps -> q ∈ ps -> p <> q -> apart L p q.
Proof.
  induction ps as [|r ps IH]; intros Hap Hp Hq Hne.
  - by apply elem_of_nil in Hp.
  - destruct Hap as [Hr Hap]. rewrite Forall_forall in Hr.
    apply elem_of_cons in Hp as [->|Hp]; apply elem_of_cons in Hq as [->|Hq].
    + done.
    + by apply Hr.
    + destruct (Hr p Hp); [right|left]; done.
    + by apply IH.
Qed.

Lemma anchored_current a mem ps :
  wf a mem ps -> anchored a -> m_next a <> 0 ->
  m_currentPage a ∈ ps /\ 0 < m_currentPage a.
Proof.
  intros Hwf Han Hn.
  destruct (wf_current_cases _ _ _ Hwf) as
    [(_ & Hcur & _)|(l & _ & -> & Hlin & [Hl0 _] & _)]; [|done].
  by apply Han in Hcur.
Qed.

Lemma anchored_bump a mem ps size :
  wf a mem ps -> anchored a -> 0 <= size -> fits a size ->
  anchored (with_next (m_next a + size) a).
Proof.
  intros Hwf Han Hsize [Hn _].
  destruct (anchored_current a mem ps Hwf Han Hn) as [_ Hpos].
  pose proof (wf_next_word _ _ _ Hwf). unfold anchored. simpl. lia.
Qed.

Lemma anchored_rewindTo a mem ps ptr :
  wf a mem ps -> anchored a -> m_pages a <> 0 \/ rewindTo a ptr = a ->
  anchored (rewindTo a ptr).
Proof.
  intros Hwf Han [Hpages| ->]; [|done].
  destruct (wf_current_cases _ _ _ Hwf) as [(_ & _ & ?)|(l & _ & Hcur & _ & [Hl _] & _)];
    [done|].
  destruct (rewindTo_cases a ptr) as [[Hin ->]|[_ ->]]; [|done].
  rewrite (wf_start _ _ _ Hwf) in Hin.
  unfold anchored, sizeofPage in *. simpl. lia.
Qed.

Lemma live_ok_bump a mem ps live size :
  wf a mem ps -> anchored a -> 0 <= size -> fits a size -> live_ok a mem live ->
  live_ok (with_next (m_next a + size) a) mem ((m_next a, size) :: live).
Proof.
  intros Hwf Han Hsize [Hn Hfit] Hlive.
  destruct (anchored_current a mem ps Hwf Han Hn) as [Hin Hpos].
  pose proof (wf_cursor _ _ _ Hwf Hn) as [Hlo _]. rewrite (wf_start _ _ _ Hwf) in Hlo.
  constructor.
  - exists (m_currentPage a). split; [by apply (wf_dom _ _ _ Hwf)|].
    split; [split; simpl; lia|]. intros _. simpl. lia.
  - eapply Forall_impl; [exact Hlive|]. intros r (p & Hp & Hr & Hcur).
    exists p. split; [done|]. split; [done|]. simpl. intros E. specialize (Hcur E). lia.
Qed.

Lemma live_ok_grow a mem a' mem' ps live size buf :
  wf a mem ps -> wf a' mem' (ps ++ [buf]) ->
  m_pageSize a' = m_pageSize a -> m_currentPage a' = buf ->
  m_next a' = buf + sizeofPage + size -> mem !! buf = None ->
  0 <= size <= m_maxAllocSize a ->
  live_ok a mem live ->
  live_ok a' mem' ((buf + sizeofPage, size) :: live).
Proof.
  intros Hwf Hwf' Hps Hcur Hnext Hnone Hsize Hlive.
  pose proof (wf_max _ _ _ Hwf) as Hmax.
  constructor.
  - exists buf. split.
    { apply (wf_dom _ _ _ Hwf'), elem_of_app. right. by left. }
    split; [split; simpl; rewrite ?Hps; lia|]. intros _. simpl. lia.
  - eapply Forall_impl; [exact Hlive|]. intros r (p & Hp & Hr & _).
    exists p. split.
    { apply (wf_dom _ _ _ Hwf'), elem_of_app. left. by apply (wf_dom _ _ _ Hwf). }
    split; [unfold in_page in *; by rewrite Hps|].
    intros E. rewrite Hcur in E. subst p. rewrite Hnone in Hp. by destruct Hp.
Qed.

Lemma live_ok_rewind a mem live ptr :
  live_ok a mem live -> live_ok (rewindTo a ptr) mem (live_after_rewind a ptr live).
Proof.
  intros Hlive. unfold live_after_rewind, rewindTo.
  destruct ((start (m_currentPage a) <=? ptr) && (ptr <? end_ a (m_currentPage a)));
    [|done].
  apply Forall_forall. intros r Hr.
  apply list_elem_of_filter in Hr as [Hkeep Hr].
  unfold live_ok in Hlive. rewrite Forall_forall in Hlive.
  destruct (Hlive r Hr) as (p & Hp & [Hr1 Hr2] & _).
  exists p. split; [done|]. split; [done|]. simpl. intros ->.
  unfold abandoned in Hkeep.
  apply andb_false_iff in Hkeep as [Hkeep|Hkeep];
    [apply andb_false_iff in Hkeep as [Hkeep|Hkeep]|]; lia.
Qed.

Lemma new_anchored averageAllocSize : anchored (LinearAllocator_new averageAllocSize).
Proof. split; reflexivity. Qed.

Lemma reach_inv a mem live :
  reach a mem live -> exists ps, wf a mem ps /\ anchored a /\ live_ok a mem live.
Proof.
  induction 1 as [avg Hwf
                 |a mem live size buf ptr d a' mem' _ (ps & Hwf & Han & Hlive) Hsize Hok Ha
                 |a mem live ptr _ (ps & Hwf & Han & Hlive) Hcall].
  - exists []. split; [done|]. split; [apply new_anchored|constructor].
  - destruct (Z.lt_ge_cases (m_maxAllocSize a) size) as [Hbig|Hsmall].
    { rewrite alloc_too_large in Ha by done. injection Ha as <- <- <- <-.
      exists ps. done. }
    destruct (decide (fits a size)) as [Hfit|Hnofit].
    + rewrite (alloc_fits a mem ps) in Ha; [|done|lia|done].
      injection Ha as <- <- <- <-.
      destruct Hfit as [Hn Hfit]. apply Z.eqb_neq in Hn as Hn'. rewrite Hn'.
      exists ps. split; [apply wf_bump_cursor; [done|lia|done]|].
      split; [apply (anchored_bump a mem ps); [done|done|lia|done]|].
      apply (live_ok_bump a mem ps); try done. lia.
    + destruct (alloc_grows a mem ps size buf)
        as (a1 & mem1 & Ha1 & Hwf1 & Hps & Hmax & Hcur & Hnext & Hnone & Hsome);
        [done|lia|done|done|].
      rewrite Ha1 in Ha. injection Ha as <- <- <- <-.
      destruct Hok as [[Hb0 _] _].
      assert ((buf + sizeofPage =? 0) = false) as ->
        by (apply Z.eqb_neq; unfold sizeofPage; lia).
      exists (ps ++ [buf]). split; [done|].
      split; [unfold anchored; rewrite Hcur, Hnext; unfold sizeofPage; lia|].
      apply (live_ok_grow a mem a1 mem1 ps); try done. lia.
  - exists ps. split; [by apply rewindTo_wf|].
    split; [by apply (anchored_rewindTo a mem ps)|by apply live_ok_rewind].
Qed.

(** * The constructor *)

Lemma to_int_small z : 0 <= z < 2 ^ 31 -> to_int z = z.
Proof.
  intros H. unfold to_int. pose proof modulus_eq.
  rewrite wrap_small by lia.
  destruct (Z.ltb_spec z (2 ^ 31)); lia.
Qed.

(** Where the arithmetic of the constructor does not wrap, the page size is
    the one aimed at. *)
Lemma new_pageSize_ideal averageAllocSize :
  0 <= averageAllocSize -> ideal_pageSize averageAllocSize < modulus ->
  m_pageSize (LinearAllocator_new averageAllocSize) = ideal_pageSize averageAllocSize.
Proof.
  intros Havg Hfit. unfold LinearAllocator_new, ideal_pageSize in *.
  cbn [m_pageSize]. pose proof modulus_eq as Hm. revert Hfit.
  destruct (Z.eqb_spec averageAllocSize 0) as [|Hne]; [done|]. intros Hfit.
  unfold TARGET_PAGE_SIZE, sizeofPage, MIN_OBJECT_COUNT in *.
  change (to_int (16384 - 4)) with 16380.
  change (wrap 16380) with 16380.
  change (16384 - 4) with 16380 in *.
  assert (0 <= 16380 / averageAllocSize <= 16380) as Hq.
  { split; [apply Z.div_pos; lia|].
    apply Z.div_le_upper_bound; [lia|]. nia. }
  rewrite to_int_small by lia.
  set (q := 16380 / averageAllocSize) in *.
  assert ((if q <? 4 then 4 else q) = Z.max 4 q) as ->.
  { destruct (Z.ltb_spec q 4); lia. }
  assert (0 <= Z.max 4 q * averageAllocSize) by nia.
  rewrite (wrap_small (Z.max 4 q)) by lia.
  rewrite (wrap_small (Z.max 4 q * averageAllocSize)) by lia.
  apply wrap_small. lia.
Qed.

Lemma ideal_pageSize_header averageAllocSize :
  0 <= averageAllocSize -> sizeofPage <= ideal_pageSize averageAllocSize.
Proof.
  intros Havg. unfold ideal_pageSize, TARGET_PAGE_SIZE, sizeofPage, MIN_OBJECT_COUNT.
  destruct (Z.eqb_spec averageAllocSize 0); [lia|]. nia.
Qed.

(** The arena the constructor builds is well formed when twice the page
    size aimed at is within the address space. *)
Lemma LinearAllocator_new_wf averageAllocSize :
  0 <= averageAllocSize ->
  2 * ideal_pageSize averageAllocSize < modulus ->
  wf (LinearAllocator_new averageAllocSize) ∅ [].
Proof.
  intros Havg Hfit.
  pose proof (ideal_pageSize_header _ Havg) as Hhd.
  assert (ideal_pageSize averageAllocSize < modulus) as Hlt
    by (unfold sizeofPage in *; lia).
  pose proof (new_pageSize_ideal _ Havg Hlt) as Hps.
  assert (m_maxAllocSize (LinearAllocator_new averageAllocSize)
          = m_pageSize (LinearAllocator_new averageAllocSize) - sizeofPage) as Hmax.
  { change (m_maxAllocSize (LinearAllocator_new averageAllocSize))
      with (wrap (m_pageSize (LinearAllocator_new averageAllocSize) - sizeofPage)).
    apply wrap_small. rewrite Hps; unfold sizeofPage in *; lia. }
  constructor.
  - rewrite Hps; lia.
  - done.
  - rewrite Hmax, Hps; unfold sizeofPage in *; lia.
  - split; reflexivity.
  - intros p. rewrite lookup_empty. split; [by intros [? ?]|by intros ?%elem_of_nil].
  - constructor.
  - exact I.
  - simpl. pose proof modulus_eq. lia.
  - intros Hn. by simpl in Hn.
Qed.

Lemma LinearAllocator_new_default_wf : wf (LinearAllocator_new 0) ∅ [].
Proof. apply LinearAllocator_new_wf; [lia|]. rewrite modulus_eq. reflexivity. Qed.

Lemma new_maxAllocSize averageAllocSize :
  m_maxAllocSize (LinearAllocator_new averageAllocSize)
  = wrap (m_pageSize (LinearAllocator_new averageAllocSize) - sizeofPage).
Proof. reflexivity. Qed.

(** The sizes the constructor sets when the page size aimed at is a
    [size_t]: the default page size without a hint, [count * hint + header]
    with one, and [maxAllocSize = pageSize - header]. *)
Lemma constructor_sizes_in_range averageAllocSize :
  0 <= averageAllocSize -> ideal_pageSize averageAllocSize < modulus ->
  m_pageSize (LinearAllocator_new averageAllocSize) = ideal_pageSize averageAllocSize /\
  m_maxAllocSize (LinearAllocator_new averageAllocSize)
  = m_pageSize (LinearAllocator_new averageAllocSize) - sizeofPage /\
  (averageAllocSize = 0 ->
   m_pageSize (LinearAllocator_new averageAllocSize) = TARGET_PAGE_SIZE).
Proof.
  intros Havg Hfit.
  pose proof (new_pageSize_ideal _ Havg Hfit) as Hps.
  pose proof (ideal_pageSize_header _ Havg) as Hhd.
  split; [done|]. split.
  - rewrite new_maxAllocSize, Hps. apply wrap_small. unfold sizeofPage in *. lia.
  - intros ->. reflexivity.
Qed.

(** * The concrete arena *)

Lemma example_malloc_ok : malloc_ok (LinearAllocator_new 0) ∅ 65536.
Proof.
  split.
  - split; [lia|]. rewrite modulus_eq. reflexivity.
  - intros q Hq. rewrite lookup_empty in Hq. by destruct Hq.
Qed.

Lemma example_alloc :
  alloc (LinearAllocator_new 0) ∅ 100 65536
  = Some (65540, [], example_arena, example_mem).
Proof. vm_compute. reflexivity. Qed.

Lemma example_reach : reach example_arena example_mem [(65540, 100)].
Proof.
  apply (reach_alloc (LinearAllocator_new 0) ∅ [] 100 65536 65540 []
           example_arena example_mem).
  - apply reach_new, LinearAllocator_new_default_wf.
  - rewrite modulus_eq. lia.
  - apply example_malloc_ok.
  - apply example_alloc.
Qed.

Lemma example_wf : wf example_arena example_mem [65536].
Proof.
  destruct (alloc_grows (LinearAllocator_new 0) ∅ [] 100 65536)
    as (a' & mem' & Ha & Hwf & _).
  - apply LinearAllocator_new_default_wf.
  - split; [lia|]. vm_compute. discriminate.
  - intros [Hn _]. by apply Hn.
  - apply example_malloc_ok.
  - rewrite example_alloc in Ha. injection Ha as <- <-. exact Hwf.
Qed.

Lemma example_next_malloc_ok : malloc_ok example_arena example_mem 131072.
Proof.
  split.
  - split; [lia|]. rewrite modulus_eq. simpl. lia.
  - intros q [v Hq]. unfold example_mem in Hq.
    apply lookup_singleton_Some in Hq as [<- _]. right. simpl. lia.
Qed.

Lemma example_run : alloc_run example_arena example_mem [(65536, 100)].
Proof.
  apply (run_alloc (LinearAllocator_new 0) ∅ [] 100 65536 65540 []
           example_arena example_mem).
  - apply run_new, LinearAllocator_new_default_wf.
  - rewrite modulus_eq. lia.
  - apply example_malloc_ok.
  - apply example_alloc.
  - lia.
Qed.

(** * The scenario of the specification, run on the model

    [Arena(0)]; two [alloc(100)]: the second pointer is the first plus 100
    and [memusage()] is the default page size.  [alloc(maxAllocSize + 1)]
    fails and [memusage()] is unchanged.  [alloc(maxAllocSize)] no longer
    fits the page: a second page, [memusage()] doubles. *)
Example scenario :
  let a0 := LinearAllocator_new 0 in
  exists a1 a2 a3 mem1 mem2 mem3,
    alloc a0 ∅ 100 65536 = Some (65540, [], a1, mem1) /\
    alloc a1 mem1 100 0 = Some (65540 + 100, [], a2, mem2) /\
    memusage a2 mem2 = Some TARGET_PAGE_SIZE /\
    alloc a2 mem2 (m_maxAllocSize a2 + 1) 0
    = Some (0, [AllocationTooLarge 16381 16380], a2, mem2) /\
    alloc a2 mem2 (m_maxAllocSize a2) 131072 = Some (131076, [], a3, mem3) /\
    memusage a3 mem3 = Some (2 * TARGET_PAGE_SIZE).
Proof. do 6 eexists. repeat split; vm_compute; reflexivity. Qed.

(** * Remarks on the assumptions

    What the code does where an assumption of the theorems below fails. *)

(** A hint of [2^30 - 1]: the page size wraps to [0] and [maxAllocSize] to
    [2^32 - 4]; such an arena is not well formed. *)
Remark constructor_wraps_to_empty_page :
  m_pageSize (LinearAllocator_new 1073741823) = 0 /\
  m_maxAllocSize (LinearAllocator_new 1073741823) = 4294967292.
Proof. split; vm_compute; reflexivity. Qed.

(** [rewindTo] before the first page exists: [start] and [end] are computed
    from the null page pointer, a pointer in [4, pageSize) is taken as the
    cursor, and the next [alloc] returns it without taking a page. *)
Remark rewindTo_before_first_page :
  let a := rewindTo (LinearAllocator_new 0) 8 in
  m_next a = 8 /\ m_currentPage a = 0 /\
  alloc a ∅ 16 65536 = Some (8, [], with_next 24 a, ∅).
Proof. repeat split; vm_compute; reflexivity. Qed.

(** A page so close to the top of the address space that [next + size]
    wraps: the test of [ensureNext] passes although 380 bytes are left, and
    the cursor leaves the page. *)
Remark cursor_wraps_near_top :
  let a := mkLinearAllocator 16384 16380 4294966900 4294950896 4294950896 in
  let mem : PageMem := {[4294950896 := 0]} in
  end_ a (m_currentPage a) - m_next a = 380 /\
  alloc a mem 16000 0 = Some (4294966900, [], with_next 15604 a, mem).
Proof. split; vm_compute; reflexivity. Qed.

(** * Sequences of allocations *)

Lemma allocs_wf a mem a' mem' :
  allocs a mem a' mem' ->
  forall ps, wf a mem ps ->
  exists ps', wf a' mem' (ps ++ ps') /\ m_pageSize a' = m_pageSize a.
Proof.
  induction 1 as [a mem|a mem size buf ptr d a1 mem1 a2 mem2 Hsize Hok Ha _ IH];
    intros ps Hwf.
  - exists []. by rewrite app_nil_r.
  - destruct (alloc_wf a mem ps size buf Hwf Hsize Hok)
      as (ptr' & d' & a1' & mem1' & ps1 & Ha' & Hwf1 & _ & Hps1 & _).
    rewrite Ha in Ha'. injection Ha' as <- <- <- <-.
    destruct (IH _ Hwf1) as (ps2 & Hwf2 & Hps2).
    exists (ps1 ++ ps2). rewrite app_assoc. split; [done|congruence].
Qed.

(** * Runs of successful allocations: bytes carved per page *)

Lemma alloc_run_inv a mem log :
  alloc_run a mem log ->
  exists ps,
    wf a mem ps /\ anchored a /\
    (forall p, p ∉ ps -> carved log p = 0) /\
    (forall p, p ∈ ps -> p <> m_currentPage a ->
               0 <= carved log p <= m_pageSize a - sizeofPage) /\
    (m_next a <> 0 ->
     carved log (m_currentPage a) = m_next a - (m_currentPage a + sizeofPage)).
Proof.
  induction 1 as [avg Hwf
                 |a mem log size buf ptr d a' mem' _
                    (ps & Hwf & Han & Hout & Hsealed & Hcur) Hsize Hok Ha Hptr].
  - exists []. split; [done|]. split; [apply new_anchored|].
    split; [done|]. split; [by intros p ?%elem_of_nil|]. intros Hn. by simpl in Hn.
  - destruct (Z.lt_ge_cases (m_maxAllocSize a) size) as [Hbig|Hsmall].
    { rewrite alloc_too_large in Ha by done. injection Ha as <- _ _ _. done. }
    destruct (decide (fits a size)) as [Hfit|Hnofit].
    + rewrite (alloc_fits a mem ps) in Ha; [|done|lia|done].
      injection Ha as <- <- <- <-.
      pose proof Hfit as [Hn Hle].
      destruct (anchored_current a mem ps Hwf Han Hn) as [Hcin Hpos].
      exists ps. split; [apply wf_bump_cursor; [done|lia|done]|].
      split; [apply (anchored_bump a mem ps); [done|done|lia|done]|].
      cbn [with_next m_currentPage m_next m_pageSize carved].
      split_and!.
      * intros p Hp. rewrite (Hout p Hp).
        destruct (Z.eqb_spec (m_currentPage a) p) as [E|_]; [|lia]. by subst p.
      * intros p Hp Hne. apply Z.eqb_neq in Hne as Hne'.
        rewrite Z.eqb_sym in Hne'. rewrite Hne'. rewrite Z.add_0_l. by apply Hsealed.
      * intros _. rewrite Z.eqb_refl, (Hcur Hn). lia.
    + destruct (alloc_grows a mem ps size buf)
        as (a1 & mem1 & Ha1 & Hwf1 & Hps & Hmax & Hcur1 & Hnext & Hnone & Hsome);
        [done|lia|done|done|].
      rewrite Ha1 in Ha. injection Ha as <- <- <- <-.
      destruct Hok as [[Hb0 _] _].
      assert (buf ∉ ps) as Hbuf.
      { intros Hin. apply (wf_dom _ _ _ Hwf) in Hin. rewrite Hnone in Hin.
        by destruct Hin. }
      exists (ps ++ [buf]). split; [done|].
      split; [unfold anchored; rewrite Hcur1, Hnext; unfold sizeofPage; lia|].
      rewrite Hcur1, Hnext, Hps. cbn [carved].
      split_and!.
      * intros p Hp. apply not_elem_of_app in Hp as [Hp Hpb].
        rewrite list_elem_of_singleton in Hpb.
        rewrite (Hout p Hp). destruct (Z.eqb_spec buf p); [congruence|lia].
      * intros p Hp Hne. apply elem_of_app in Hp as [Hp|Hp];
          [|by apply list_elem_of_singleton in Hp].
        destruct (Z.eqb_spec buf p); [congruence|]. rewrite Z.add_0_l.
        destruct (decide (p = m_currentPage a)) as [->|Hnc]; [|by apply Hsealed].
        assert (m_next a <> 0) as Hn.
        { intros E. apply Han in E. rewrite E in Hp.
          by apply (chain_elem_nonnull mem (m_pages a) ps 0 (proj1 (wf_last _ _ _ Hwf))) in Hp. }
        rewrite (Hcur Hn).
        pose proof (wf_cursor _ _ _ Hwf Hn) as [Hlo Hhi].
        rewrite (wf_start _ _ _ Hwf) in Hlo. rewrite (wf_end _ _ _ Hwf) in Hhi. lia.
      * intros _. rewrite Z.eqb_refl, (Hout buf Hbuf). lia.
Qed.

(** * The claims *)

(** C2. For every size greater than [maxAllocSize], [alloc(size)] fails: it
    returns the null pointer and logs the error, and the arena is exactly as
    before the call (no page is allocated; page chain, current page and
    cursor are unchanged), so [memusage()] is unchanged too. *)
Theorem alloc_oversized_fails a mem size buf :
  m_maxAllocSize a < size ->
  exists a' mem',
    alloc a mem size buf
    = Some (0, [AllocationTooLarge size (m_maxAllocSize a)], a', mem') /\
    a' = a /\ mem' = mem /\ memusage a' mem' = memusage a mem.
Proof.
  intros Hbig. exists a, mem. split; [by apply alloc_too_large|done].
Qed.

Lemma alloc_oversized_fails_witness :
  exists a' mem',
    alloc example_arena example_mem 16381 0
    = Some (0, [AllocationTooLarge 16381 (m_maxAllocSize example_arena)], a', mem') /\
    a' = example_arena /\ mem' = example_mem /\
    memusage a' mem' = memusage example_arena example_mem.
Proof.
  apply (alloc_oversized_fails example_arena example_mem 16381 0).
  simpl. lia.
Defined.

(** C5 (the code departs from it).  For the hint [2^30] the page size aimed
    at is [4 * 2^30 + 4], which is no [size_t]: the product wraps, the
    constructor sets [pageSize = 4] and [maxAllocSize = 0], and the page has
    no room for even one object, let alone [MIN_OBJECT_COUNT]. *)
Theorem constructor_wraps_on_large_hint :
  ideal_pageSize 1073741824 = 4294967300 /\
  m_pageSize (LinearAllocator_new 1073741824) = 4 /\
  m_maxAllocSize (LinearAllocator_new 1073741824) = 0.
Proof. repeat split; vm_compute; reflexivity. Qed.

(** C6 as stated fails: in the concrete arena the cursor is at [65640], and
    [rewindTo(65740)], a pointer of the current page beyond the cursor,
    moves it forward. *)
Lemma rewindTo_can_move_forward :
  reach example_arena example_mem [(65540, 100)] /\
  m_pages example_arena <> 0 /\
  m_next example_arena = 65640 /\
  m_next (rewindTo example_arena 65740) = 65740 /\
  ~ m_next (rewindTo example_arena 65740) <= m_next example_arena.
Proof.
  split; [apply example_reach|]. split; [simpl; lia|].
  split; [reflexivity|]. split; [vm_compute; reflexivity|].
  vm_compute. intros H. by apply H.
Qed.

(** The guard of [rewindTo], for an arena that has a page: it holds
    exactly of the pointers in the usable range of the current page. *)
Lemma rewindTo_guard a mem ps ptr :
  wf a mem ps -> m_currentPage a <> 0 ->
  (start (m_currentPage a) <= ptr < end_ a (m_currentPage a)) <-> in_current_page a ptr.
Proof.
  intros Hwf Hcur. rewrite (wf_start _ _ _ Hwf), (wf_end _ _ _ Hwf).
  unfold in_current_page. tauto.
Qed.

Lemma wf_has_page a mem ps : wf a mem ps -> m_pages a <> 0 -> m_currentPage a <> 0.
Proof.
  intros Hwf Hpages.
  destruct (wf_current_cases _ _ _ Hwf) as [(_ & _ & ?)|(l & _ & -> & _ & [Hl _] & _)];
    [done|lia].
Qed.

(** C6, amended.  In every well-formed arena with at least one page and
    for every pointer [p]: if [p] lies in the usable range of the current
    page, [rewindTo(p)] sets the cursor to [p] and changes nothing else;
    otherwise it leaves the arena as it is.  So the cursor after the call is
    less than or equal to its value before, except for a pointer of that
    range above the cursor: there, and only there, the cursor moves
    forward, to [p]. *)
Theorem rewindTo_cursor_direction a mem ps ptr :
  wf a mem ps -> m_pages a <> 0 ->
  (in_current_page a ptr -> rewindTo a ptr = with_next ptr a) /\
  (~ in_current_page a ptr -> rewindTo a ptr = a) /\
  (m_next (rewindTo a ptr) <= m_next a
   <-> ~ (in_current_page a ptr /\ m_next a < ptr)) /\
  (in_current_page a ptr -> m_next a < ptr ->
   m_next (rewindTo a ptr) = ptr /\ m_next a < m_next (rewindTo a ptr)).
Proof.
  intros Hwf Hpages.
  pose proof (wf_has_page _ _ _ Hwf Hpages) as Hcur.
  pose proof (rewindTo_guard a mem ps ptr Hwf Hcur) as Hguard.
  destruct (rewindTo_cases a ptr) as [[Hin ->]|[Hout ->]].
  - apply Hguard in Hin. split_and!; try done.
    simpl. split; [intros Hle [_ Hlt]; lia|].
    intros Hno. destruct (Z.le_gt_cases ptr (m_next a)); [done|].
    exfalso. apply Hno. split; [done|lia].
  - assert (~ in_current_page a ptr) as Hno by (intros H; by apply Hout, Hguard).
    split_and!; try done.
    split; [intros _ [H _]; done|lia].
Qed.

Lemma rewindTo_cursor_direction_witness :
  (in_current_page example_arena 65740 ->
   rewindTo example_arena 65740 = with_next 65740 example_arena) /\
  (~ in_current_page example_arena 65740 ->
   rewindTo example_arena 65740 = example_arena) /\
  (m_next (rewindTo example_arena 65740) <= m_next example_arena
   <-> ~ (in_current_page example_arena 65740 /\ m_next example_arena < 65740)) /\
  (in_current_page example_arena 65740 -> m_next example_arena < 65740 ->
   m_next (rewindTo example_arena 65740) = 65740 /\
   m_next example_arena < m_next (rewindTo example_arena 65740)).
Proof.
  apply (rewindTo_cursor_direction example_arena example_mem [65536] 65740).
  - apply example_wf.
  - simpl. lia.
Defined.

(** Where the arena has a current page, [rewindTo] with a pointer outside
    its usable range is a silent no-op: the call returns, logs nothing, and
    the arena is unchanged. *)
Lemma rewindTo_outside_current_page a mem ps ptr :
  wf a mem ps -> m_currentPage a <> 0 ->
  ~ in_current_page a ptr ->
  exec (RewindTo ptr) a mem = Some (RVoid, [], a, mem).
Proof.
  intros Hwf Hcur Hout. unfold exec.
  destruct (rewindTo_cases a ptr) as [[Hin _]|[_ ->]]; [|done].
  exfalso. by apply Hout, (rewindTo_guard a mem ps).
Qed.

(** Where the arena has no current page, [rewindTo] computes [start] and
    [end] from the null pointer and takes every pointer in
    [sizeof(Page), pageSize) as the new cursor. *)
Lemma rewindTo_without_page a ptr :
  m_currentPage a = 0 -> 0 <= m_pageSize a < modulus ->
  sizeofPage <= ptr < m_pageSize a ->
  rewindTo a ptr = with_next ptr a.
Proof.
  intros Hcur Hps Hptr.
  destruct (rewindTo_cases a ptr) as [[_ ->]|[Hout _]]; [done|].
  exfalso. apply Hout. rewrite Hcur. unfold start, end_.
  rewrite !wrap_small; [done|lia|]. rewrite modulus_eq. unfold sizeofPage. lia.
Qed.

(** C8 (the code departs from it).  On the arena the constructor returns
    there is no current page, so the pointer [8] lies in no usable range;
    yet [rewindTo(8)] is no no-op: it sets the cursor to [8], and the next
    [alloc(16)] returns the address [8] without taking a page.
    [ensureNext] tests [m_currentPage] for null before it uses it,
    [rewindTo] does not. *)
Theorem rewindTo_without_page_moves_cursor :
  let a0 := LinearAllocator_new 0 in
  ~ in_current_page a0 8 /\
  exec (RewindTo 8) a0 ∅ = Some (RVoid, [], with_next 8 a0, ∅) /\
  with_next 8 a0 <> a0 /\
  alloc (with_next 8 a0) ∅ 16 65536 = Some (8, [], with_next 24 a0, ∅) /\
  memusage (with_next 24 a0) ∅ = Some 0.
Proof.
  split_and!.
  - intros [H _]. by apply H.
  - vm_compute. reflexivity.
  - intros H. discriminate H.
  - vm_compute. reflexivity.
  - vm_compute. reflexivity.
Qed.

(** C7. If [p] lies in the usable range of the current page and
    [p + size] is at most the cursor, then [rewindTo(p)] followed by
    [alloc(size)], with [0 < size <= maxAllocSize], returns exactly [p] and
    takes no new page: the page headers, the chain and [memusage()] are as
    before the two calls. *)
Theorem rewind_then_alloc_reuses a mem ps ptr size buf :
  wf a mem ps ->
  start (m_currentPage a) <= ptr < end_ a (m_currentPage a) ->
  ptr + size <= m_next a ->
  0 < size <= m_maxAllocSize a ->
  exists a',
    alloc (rewindTo a ptr) mem size buf = Some (ptr, [], a', mem) /\
    m_pages a' = m_pages a /\ m_currentPage a' = m_currentPage a /\
    m_next a' = ptr + size /\
    memusage a' mem = memusage a mem.
Proof.
  intros Hwf Hin Hbelow Hsize.
  pose proof (rewindTo_wf a mem ps ptr Hwf) as Hwf'.
  destruct (rewindTo_cases a ptr) as [[_ Hr]|[Hout _]]; [|done].
  rewrite Hr in *.
  pose proof (wf_currentPage_range _ _ _ Hwf) as [Hc0 _].
  assert (m_next a <> 0) as Hn.
  { rewrite (wf_start _ _ _ Hwf) in Hin. unfold sizeofPage in *. lia. }
  pose proof (wf_cursor _ _ _ Hwf Hn) as [_ Hhi].
  rewrite (wf_end _ _ _ Hwf) in Hhi. rewrite (wf_start _ _ _ Hwf) in Hin.
  assert (fits (with_next ptr a) size) as Hfit.
  { split; simpl; unfold sizeofPage in *; lia. }
  exists (with_next (ptr + size) a).
  split; [|done].
  rewrite (alloc_fits _ mem ps size buf Hwf'); [done|simpl; lia|done].
Qed.

Lemma rewind_then_alloc_reuses_witness :
  exists a',
    alloc (rewindTo example_arena 65540) example_mem 60 0
    = Some (65540, [], a', example_mem) /\
    m_pages a' = m_pages example_arena /\
    m_currentPage a' = m_currentPage example_arena /\
    m_next a' = 65540 + 60 /\
    memusage a' example_mem = memusage example_arena example_mem.
Proof.
  apply (rewind_then_alloc_reuses example_arena example_mem [65536] 65540 60 0).
  - apply example_wf.
  - vm_compute. split; [intros H; discriminate H | reflexivity].
  - simpl. lia.
  - simpl. lia.
Defined.

(** C1. In every reachable state, for every size with
    [0 < size <= maxAllocSize] and a successful [malloc] behind it,
    [alloc(size)] returns a non-null pointer to [size] bytes inside the
    usable range of a page of the arena, and these bytes overlap no region
    that an earlier successful [alloc] returned and no [rewindTo] gave up. *)
Theorem alloc_returns_fresh_region a mem live size buf :
  reach a mem live ->
  0 < size <= m_maxAllocSize a ->
  malloc_ok a mem buf ->
  exists ptr a' mem',
    alloc a mem size buf = Some (ptr, [], a', mem') /\
    ptr <> 0 /\
    (exists p, is_Some (mem' !! p) /\ in_page a' p (ptr, size)) /\
    Forall (fun r => ~ overlap r (ptr, size)) live.
Proof.
  intros Hreach Hsize Hok.
  destruct (reach_inv _ _ _ Hreach) as (ps & Hwf & Han & Hlive).
  unfold live_ok in Hlive. rewrite Forall_forall in Hlive.
  destruct (decide (fits a size)) as [Hfit|Hnofit].
  - exists (m_next a), (with_next (m_next a + size) a), mem.
    split; [apply (alloc_fits a mem ps); [done|lia|done]|].
    destruct Hfit as [Hn Hfit]. split; [done|].
    destruct (anchored_current a mem ps Hwf Han Hn) as [Hcin Hpos].
    pose proof (wf_cursor _ _ _ Hwf Hn) as [Hlo _].
    rewrite (wf_start _ _ _ Hwf) in Hlo.
    split.
    + exists (m_currentPage a). split; [by apply (wf_dom _ _ _ Hwf)|].
      split; simpl; lia.
    + apply Forall_forall. intros r Hr [Ho1 Ho2]. simpl in Ho1, Ho2.
      destruct (Hlive r Hr) as (p & Hp & [Hr1 Hr2] & Hcur).
      destruct (decide (p = m_currentPage a)) as [E|Hne]; [specialize (Hcur E); lia|].
      apply (wf_dom _ _ _ Hwf) in Hp.
      destruct (blocks_apart_pair _ ps p (m_currentPage a) (wf_apart _ _ _ Hwf) Hp Hcin Hne);
        unfold sizeofPage in *; lia.
  - destruct (alloc_grows a mem ps size buf)
      as (a' & mem' & Ha & Hwf' & Hps & Hmax & Hcur & Hnext & Hnone & Hsome);
      [done|lia|done|done|].
    exists (buf + sizeofPage), a', mem'. split; [done|].
    destruct Hok as [[Hb0 Hb1] Hfresh].
    pose proof (wf_max _ _ _ Hwf) as Hmx.
    split; [unfold sizeofPage; lia|]. split.
    + exists buf. split; [by rewrite Hsome|]. split; simpl; rewrite ?Hps; lia.
    + apply Forall_forall. intros r Hr [Ho1 Ho2]. simpl in Ho1, Ho2.
      destruct (Hlive r Hr) as (p & Hp & [Hr1 Hr2] & _).
      destruct (Hfresh p Hp); unfold sizeofPage in *; lia.
Qed.

Lemma alloc_returns_fresh_region_witness :
  exists ptr a' mem',
    alloc example_arena example_mem 200 131072 = Some (ptr, [], a', mem') /\
    ptr <> 0 /\
    (exists p, is_Some (mem' !! p) /\ in_page a' p (ptr, 200)) /\
    Forall (fun r => ~ overlap r (ptr, 200)) [(65540, 100)].
Proof.
  apply (alloc_returns_fresh_region example_arena example_mem [(65540, 100)] 200 131072).
  - apply example_reach.
  - simpl. lia.
  - apply example_next_malloc_ok.
Defined.

(** C4. In every well-formed state (every reachable state is one),
    [memusage()] returns [pageSize] times the number of pages allocated so
    far; no sequence of [alloc] calls makes it smaller; [rewindTo] leaves it
    unchanged. *)
Theorem memusage_counts_pages a mem ps :
  wf a mem ps ->
  memusage a mem = Some (m_pageSize a * Z.of_nat (size mem)) /\
  (forall a' mem', allocs a mem a' mem' ->
     exists n n', memusage a mem = Some n /\ memusage a' mem' = Some n' /\ n <= n') /\
  (forall ptr, memusage (rewindTo a ptr) mem = memusage a mem).
Proof.
  intros Hwf. split_and!.
  - rewrite (wf_size_mem a mem ps Hwf). by apply wf_memusage.
  - intros a' mem' Hallocs.
    destruct (allocs_wf _ _ _ _ Hallocs ps Hwf) as (ps' & Hwf' & Hps).
    eexists _, _. split; [by apply (wf_memusage a mem ps)|].
    split; [by apply (wf_memusage a' mem' (ps ++ ps'))|].
    pose proof (wf_sizes _ _ _ Hwf) as [[? _] _].
    rewrite Hps, length_app. unfold sizeofPage in *. nia.
  - intros ptr. by destruct (rewindTo_cases a ptr) as [[_ ->]|[_ ->]].
Qed.

Lemma memusage_counts_pages_witness :
  memusage example_arena example_mem
  = Some (m_pageSize example_arena * Z.of_nat (size example_mem)) /\
  (forall a' mem', allocs example_arena example_mem a' mem' ->
     exists n n', memusage example_arena example_mem = Some n /\
                  memusage a' mem' = Some n' /\ n <= n') /\
  (forall ptr, memusage (rewindTo example_arena ptr) example_mem
               = memusage example_arena example_mem).
Proof.
  apply (memusage_counts_pages example_arena example_mem [65536]).
  apply example_wf.
Defined.

Lemma wf_anchored_cursor a mem ps :
  wf a mem ps -> anchored a -> cursor_in_current_page a.
Proof.
  intros Hwf Han Hn.
  destruct (anchored_current a mem ps Hwf Han Hn) as [_ Hpos].
  pose proof (wf_cursor _ _ _ Hwf Hn) as Hc.
  rewrite (wf_start _ _ _ Hwf), (wf_end _ _ _ Hwf) in Hc.
  split; [lia|done].
Qed.

(** What the operations do keep.  From a well-formed arena whose cursor is
    null exactly while there is no page, [alloc] (served by a successful
    [malloc]) and [memusage] return and keep the invariants: the cursor,
    when non-null, lies in the usable range of an existing current page,
    which is the last page of a chain that only grows at its tail.
    [rewindTo] keeps them once a page exists, or when it is a no-op. *)
Lemma operations_preserve_invariants_with_page a mem ps o :
  wf a mem ps -> anchored a -> op_env a mem o ->
  (forall ptr, o = RewindTo ptr -> m_pages a <> 0 \/ rewindTo a ptr = a) ->
  exists r d a' mem' ps',
    exec o a mem = Some (r, d, a', mem') /\
    cursor_in_current_page a' /\
    current_is_last a' mem' (ps ++ ps') /\
    wf a' mem' (ps ++ ps') /\ anchored a'.
Proof.
  intros Hwf Han Henv Hrew.
  assert (forall r d a' mem' ps',
            exec o a mem = Some (r, d, a', mem') ->
            wf a' mem' (ps ++ ps') -> anchored a' ->
            exists r d a' mem' ps',
              exec o a mem = Some (r, d, a', mem') /\
              cursor_in_current_page a' /\
              current_is_last a' mem' (ps ++ ps') /\
              wf a' mem' (ps ++ ps') /\ anchored a') as Hpack.
  { intros r d a' mem' ps' He Hwf' Han'. exists r, d, a', mem', ps'.
    split; [done|]. split; [by apply (wf_anchored_cursor a' mem' (ps ++ ps'))|].
    split; [apply Hwf'|done]. }
  destruct o as [size buf|ptr|]; simpl in Henv.
  - destruct Henv as [Hsize Hok]. simpl.
    destruct (Z.lt_ge_cases (m_maxAllocSize a) size) as [Hbig|Hsmall].
    { apply (Hpack (RPtr 0) [AllocationTooLarge size (m_maxAllocSize a)] a mem []);
        rewrite ?app_nil_r; try done.
      simpl. by rewrite alloc_too_large. }
    destruct (decide (fits a size)) as [Hfit|Hnofit].
    + apply (Hpack (RPtr (m_next a)) [] (with_next (m_next a + size) a) mem []);
        rewrite ?app_nil_r.
      * simpl. rewrite (alloc_fits a mem ps); [done|done|lia|done].
      * apply wf_bump_cursor; [done|lia|done].
      * apply (anchored_bump a mem ps); [done|done|lia|done].
    + destruct (alloc_grows a mem ps size buf)
        as (a1 & mem1 & Ha1 & Hwf1 & Hps & Hmax & Hcur & Hnext & _);
        [done|lia|done|done|].
      destruct Hok as [[Hb0 _] _].
      apply (Hpack (RPtr (buf + sizeofPage)) [] a1 mem1 [buf]); [|done|].
      * simpl. by rewrite Ha1.
      * unfold anchored. rewrite Hcur, Hnext. unfold sizeofPage. lia.
  - apply (Hpack RVoid [] (rewindTo a ptr) mem []); rewrite ?app_nil_r.
    + done.
    + by apply rewindTo_wf.
    + apply (anchored_rewindTo a mem ps); [done|done|]. by apply Hrew.
  - apply (Hpack (RSize (m_pageSize a * Z.of_nat (length ps))) [] a mem []);
      rewrite ?app_nil_r; try done.
    simpl. by rewrite (wf_memusage a mem ps Hwf).
Qed.

(** C9 (the code departs from it).  The arena the constructor returns
    keeps the invariants: the cursor is null, and the null current page
    ends the empty chain.  After [rewindTo(8)] the cursor is [8], which is
    non-null, while there is still no current page and no page at all: the
    cursor lies within no page.  The chain invariant is kept. *)
Theorem rewindTo_breaks_cursor_invariant :
  let a0 := LinearAllocator_new 0 in
  let a1 := rewindTo a0 8 in
  cursor_in_current_page a0 /\ current_is_last a0 ∅ [] /\
  exec (RewindTo 8) a0 ∅ = Some (RVoid, [], a1, ∅) /\
  m_next a1 = 8 /\ m_currentPage a1 = 0 /\ m_pages a1 = 0 /\
  current_is_last a1 ∅ [] /\
  ~ cursor_in_current_page a1.
Proof.
  split_and!; try reflexivity.
  - intros Hn. by simpl in Hn.
  - split; reflexivity.
  - split; reflexivity.
  - intros H. destruct H as [Hcur _]; [vm_compute; discriminate|]. by apply Hcur.
Qed.

(** C10. [alloc(0)] does not fail.  Once a page exists it returns the cursor
    and leaves the arena as it is, so a second [alloc(0)] returns the same
    pointer.  While no page exists it takes a whole page, [memusage()]
    grows by [pageSize], and it returns the start of that page without
    moving the cursor further: a second [alloc(0)] returns the same pointer. *)
Theorem alloc_zero a mem live buf :
  reach a mem live -> malloc_ok a mem buf ->
  (m_pages a <> 0 ->
     m_next a <> 0 /\ alloc a mem 0 buf = Some (m_next a, [], a, mem)) /\
  (m_pages a = 0 ->
     exists a' mem' n,
       alloc a mem 0 buf = Some (start buf, [], a', mem') /\
       start buf <> 0 /\
       m_next a' = start buf /\
       memusage a mem = Some n /\
       memusage a' mem' = Some (n + m_pageSize a) /\
       forall buf', alloc a' mem' 0 buf' = Some (start buf, [], a', mem')).
Proof.
  intros Hreach Hok.
  destruct (reach_inv _ _ _ Hreach) as (ps & Hwf & Han & _).
  pose proof (wf_sizes _ _ _ Hwf) as [[Hs0 Hs1] Hmax].
  split.
  - intros Hpages.
    destruct (wf_current_cases _ _ _ Hwf) as [(_ & _ & ?)|(l & _ & Hcur & _ & [Hl _] & _)];
      [done|].
    assert (m_next a <> 0) as Hn by (intros E; apply Han in E; lia).
    split; [done|].
    pose proof (wf_cursor _ _ _ Hwf Hn) as [_ Hhi]. rewrite (wf_end _ _ _ Hwf) in Hhi.
    rewrite (alloc_fits a mem ps); [|done|lia|split; [done|lia]].
    by rewrite Z.add_0_r, with_next_same.
  - intros Hpages.
    assert (~ fits a 0) as Hnofit.
    { intros [Hn _]. apply Hn, Han.
      destruct (wf_current_cases _ _ _ Hwf) as [(_ & ? & _)|(l & _ & _ & _ & _ & ?)]; done. }
    destruct (alloc_grows a mem ps 0 buf)
      as (a' & mem' & Ha & Hwf' & Hps & Hmx & Hcur & Hnext & Hnone & Hsome);
      [done|lia|done|done|].
    destruct Hok as [[Hb0 Hb1] _].
    assert (start buf = buf + sizeofPage) as Hstart.
    { unfold start. apply wrap_small. unfold sizeofPage in *. lia. }
    rewrite Z.add_0_r in Hnext. rewrite Hstart.
    exists a', mem', (m_pageSize a * Z.of_nat (length ps)).
    split; [done|]. split; [unfold sizeofPage; lia|]. split; [done|].
    split; [by apply wf_memusage|].
    split.
    + rewrite (wf_memusage a' mem' _ Hwf'), Hps, length_app. f_equal. simpl. lia.
    + intros buf'.
      assert (m_next a' <> 0) as Hn by (unfold sizeofPage in *; lia).
      pose proof (wf_cursor _ _ _ Hwf' Hn) as [_ Hhi]. rewrite (wf_end _ _ _ Hwf') in Hhi.
      rewrite (alloc_fits a' mem' (ps ++ [buf])); [|done|lia|split; [done|lia]].
      by rewrite Z.add_0_r, with_next_same, Hnext.
Qed.

Lemma alloc_zero_witness :
  (m_pages (LinearAllocator_new 0) <> 0 ->
     m_next (LinearAllocator_new 0) <> 0 /\
     alloc (LinearAllocator_new 0) ∅ 0 65536
     = Some (m_next (LinearAllocator_new 0), [], LinearAllocator_new 0, ∅)) /\
  (m_pages (LinearAllocator_new 0) = 0 ->
     exists a' mem' n,
       alloc (LinearAllocator_new 0) ∅ 0 65536 = Some (start 65536, [], a', mem') /\
       start 65536 <> 0 /\
       m_next a' = start 65536 /\
       memusage (LinearAllocator_new 0) ∅ = Some n /\
       memusage a' mem' = Some (n + m_pageSize (LinearAllocator_new 0)) /\
       forall buf', alloc a' mem' 0 buf' = Some (start 65536, [], a', mem')).
Proof.
  apply (alloc_zero (LinearAllocator_new 0) ∅ [] 65536).
  - apply reach_new, LinearAllocator_new_default_wf.
  - apply example_malloc_ok.
Defined.

(** C3. After every sequence of successful [alloc] calls, the bytes carved
    out of any one page sum to at most the usable capacity of a page,
    [pageSize - sizeof(Page)].  A request that does not fit the space left
    in the current page, or that comes while no page exists, takes exactly
    one new page: it is linked as the new tail of the chain and becomes the
    current page, and the bytes are carved from its usable start. *)
Theorem pages_never_overfilled a mem log :
  alloc_run a mem log ->
  (forall p, carved log p <= m_pageSize a - sizeofPage) /\
  (forall nbytes buf,
     0 <= nbytes <= m_maxAllocSize a ->
     m_pages a = 0 \/ m_currentPage a + m_pageSize a < m_next a + nbytes ->
     malloc_ok a mem buf ->
     exists a' mem' ps,
       alloc a mem nbytes buf = Some (start buf, [], a', mem') /\
       size mem' = S (size mem) /\
       mem !! buf = None /\ mem' !! buf = Some 0 /\
       chain mem (m_pages a) ps /\
       chain mem' (m_pages a') (ps ++ [buf]) /\
       m_currentPage a' = buf /\
       m_next a' = start buf + nbytes).
Proof.
  intros Hrun.
  destruct (alloc_run_inv _ _ _ Hrun) as (ps & Hwf & Han & Hout & Hsealed & Hcur).
  pose proof (wf_sizes _ _ _ Hwf) as [[Hs0 Hs1] Hmax].
  split.
  - intros p. destruct (decide (p ∈ ps)) as [Hp|Hp]; [|rewrite (Hout p Hp); lia].
    destruct (decide (p = m_currentPage a)) as [->|Hne]; [|by apply Hsealed].
    assert (m_next a <> 0) as Hn.
    { intros E. apply Han in E. rewrite E in Hp.
      by apply (chain_elem_nonnull mem (m_pages a) ps 0 (proj1 (wf_last _ _ _ Hwf))) in Hp. }
    rewrite (Hcur Hn). pose proof (wf_cursor _ _ _ Hwf Hn) as [_ Hhi].
    rewrite (wf_end _ _ _ Hwf) in Hhi. lia.
  - intros nbytes buf Hsize Hfull Hok.
    assert (~ fits a nbytes) as Hnofit.
    { intros [Hn Hle]. destruct Hfull as [Hpages|Hfull]; [|lia].
      apply Hn, Han.
      destruct (wf_current_cases _ _ _ Hwf) as [(_ & ? & _)|(l & _ & _ & _ & _ & ?)]; done. }
    destruct (alloc_grows a mem ps nbytes buf)
      as (a' & mem' & Ha & Hwf' & Hps & Hmx & Hcur' & Hnext & Hnone & Hsome);
      [done|done|done|done|].
    destruct Hok as [[Hb0 Hb1] _].
    assert (start buf = buf + sizeofPage) as ->.
    { unfold start. apply wrap_small. unfold sizeofPage in *. lia. }
    exists a', mem', ps. split_and!; try done.
    + rewrite (wf_size_mem _ _ _ Hwf), (wf_size_mem _ _ _ Hwf'), length_app. simpl. lia.
    + apply Hwf.
    + apply Hwf'.
Qed.

Lemma pages_never_overfilled_witness :
  (forall p, carved [(65536, 100)] p <= m_pageSize example_arena - sizeofPage) /\
  (forall nbytes buf,
     0 <= nbytes <= m_maxAllocSize example_arena ->
     m_pages example_arena = 0 \/
     m_currentPage example_arena + m_pageSize example_arena
     < m_next example_arena + nbytes ->
     malloc_ok example_arena example_mem buf ->
     exists a' mem' ps,
       alloc example_arena example_mem nbytes buf = Some (start buf, [], a', mem') /\
       size mem' = S (size example_mem) /\
       example_mem !! buf = None /\ mem' !! buf = Some 0 /\
       chain example_mem (m_pages example_arena) ps /\
       chain mem' (m_pages a') (ps ++ [buf]) /\
       m_currentPage a' = buf /\
       m_next a' = start buf + nbytes).
Proof.
  apply (pages_never_overfilled example_arena example_mem [(65536, 100)]).
  apply example_run.
Defined.

(** * Beyond the claims: the destructor *)

Lemma chain_delete_other mem p ps q :
  chain mem p ps -> q ∉ ps -> chain (delete q mem) p ps.
Proof.
  revert p. induction ps as [|r ps IH]; intros p Hc Hq; [done|].
  destruct Hc as (-> & Hr & nx & Hnx & Hc).
  apply not_elem_of_cons in Hq as [Hqr Hq].
  split; [done|]. split; [done|]. exists nx. split.
  - by rewrite lookup_delete_ne.
  - by apply IH.
Qed.

Lemma lookup_delete_all (ps : list Z) : forall (mem : PageMem) k,
  foldl (fun m q => Page_delete q m) mem ps !! k
  = if decide (k ∈ ps) then None else mem !! k.
Proof.
  unfold Page_delete.
  induction ps as [|q ps IH]; intros mem k; simpl.
  - destruct (decide (k ∈ [])) as [H|_]; [by apply elem_of_nil in H|done].
  - rewrite IH. destruct (decide (k ∈ ps)) as [Hin|Hnin].
    + rewrite decide_True; [done|by right].
    + destruct (decide (k = q)) as [->|Hne].
      * rewrite lookup_delete_eq. rewrite decide_True; [done|by left].
      * rewrite lookup_delete_ne by done.
        rewrite decide_False; [done|]. intros [?|?]%elem_of_cons; done.
Qed.

(** The loop on a chain without repetition: every page is read before it
    is deleted, and the pages are deleted in the order of the chain. *)
Lemma destructor_loop_chain ps : forall fuel mem p freed,
  chain mem p ps -> NoDup ps -> (length ps <= fuel)%nat ->
  destructor_loop fuel mem p freed
  = Some (freed ++ ps, foldl (fun m q => Page_delete q m) mem ps).
Proof.
  induction ps as [|q ps IH]; intros fuel mem p freed Hc Hnd Hlen.
  - simpl in Hc. subst p. rewrite app_nil_r. by destruct fuel.
  - destruct Hc as (-> & Hq & nx & Hnx & Hc).
    apply NoDup_cons in Hnd as [Hqps Hnd].
    destruct fuel as [|fuel]; [simpl in Hlen; lia|].
    simpl in Hlen. cbn [destructor_loop].
    apply Z.eqb_neq in Hq. rewrite Hq. unfold Page_next. rewrite Hnx.
    rewrite (IH fuel (Page_delete q mem) nx (freed ++ [q])); [| |done|lia].
    + by rewrite <- app_assoc.
    + by apply chain_delete_other.
Qed.

(** X1. On every well-formed arena the destructor returns; it gives back
    exactly the pages of the chain, each one once and in the order of the
    chain, and no [Page] object is left; the blocks given back are the
    ones [memusage()] counted. *)
Theorem destructor_frees_every_page_once a mem ps :
  wf a mem ps ->
  LinearAllocator_destroy a mem = Some (ps, ∅) /\
  NoDup ps /\
  memusage a mem = Some (m_pageSize a * Z.of_nat (length ps)).
Proof.
  intros Hwf. pose proof (wf_NoDup _ _ _ Hwf) as Hnd.
  split; [|split; [done|by apply wf_memusage]].
  unfold LinearAllocator_destroy.
  rewrite (destructor_loop_chain ps); [|apply Hwf|done|by rewrite (wf_size_mem a mem ps)].
  simpl. f_equal. f_equal. apply map_eq. intros k.
  rewrite lookup_delete_all, lookup_empty.
  destruct (decide (k ∈ ps)) as [|Hk]; [done|].
  destruct (mem !! k) eqn:E; [|done].
  exfalso. apply Hk, (wf_dom _ _ _ Hwf). by rewrite E.
Qed.

Lemma destructor_frees_every_page_once_witness :
  LinearAllocator_destroy example_arena example_mem = Some ([65536], ∅) /\
  NoDup [65536] /\
  memusage example_arena example_mem
  = Some (m_pageSize example_arena * Z.of_nat (length [65536])).
Proof.
  apply (destructor_frees_every_page_once example_arena example_mem [65536]).
  apply example_wf.
Defined.

(** * Beyond the claims: what the operations leave alone *)

(** X2. No operation changes [m_pageSize] or [m_maxAllocSize]: whatever
    [alloc], [rewindTo] or [memusage] returns, in whatever state, the two
    sizes are those the constructor set. *)
Theorem sizes_fixed_for_lifetime o a mem r d a' mem' :
  exec o a mem = Some (r, d, a', mem') ->
  m_pageSize a' = m_pageSize a /\ m_maxAllocSize a' = m_maxAllocSize a.
Proof.
  destruct o as [size buf|ptr|]; simpl.
  - unfold alloc, ensureNext, newPage.
    destruct (m_maxAllocSize a <? size); [intros [= <- <- <- <-]; done|].
    destruct (negb (m_next a =? 0)
              && (wrap (m_next a + size) <=? end_ a (m_currentPage a)));
      [intros [= <- <- <- <-]; done|].
    destruct (buf =? 0); [done|].
    cbn [with_currentPage m_pages].
    destruct (m_pages a =? 0); intros [= <- <- <- <-]; done.
  - intros [= <- <- <- <-].
    by destruct (rewindTo_cases a ptr) as [[_ ->]|[_ ->]].
  - destruct (memusage a mem); [|done]. intros [= <- <- <- <-]. done.
Qed.

Lemma sizes_fixed_for_lifetime_witness :
  m_pageSize example_arena = m_pageSize (LinearAllocator_new 0) /\
  m_maxAllocSize example_arena = m_maxAllocSize (LinearAllocator_new 0).
Proof.
  apply (sizes_fixed_for_lifetime (Alloc 100 65536) (LinearAllocator_new 0) ∅
           (RPtr 65540) [] example_arena example_mem).
  vm_compute. reflexivity.
Defined.

(** X3. [rewindTo] changes nothing but the cursor (page pointers, sizes and
    page headers stay), and calling it again with the same pointer changes
    nothing more. *)
Theorem rewindTo_only_moves_cursor a ptr :
  rewindTo a ptr = with_next (m_next (rewindTo a ptr)) a /\
  rewindTo (rewindTo a ptr) ptr = rewindTo a ptr.
Proof.
  destruct (rewindTo_cases a ptr) as [[Hin Hr]|[Hout Hr]]; rewrite Hr.
  - split; [done|].
    destruct (rewindTo_cases (with_next ptr a) ptr) as [[_ ->]|[Hout ->]]; done.
  - split; [by rewrite with_next_same|done].
Qed.

(** X4. A pointer inside, or at the end of, the block of a page that is
    not the current one is ignored by [rewindTo]: the arena is unchanged. *)
Theorem rewindTo_ignores_other_pages a mem ps q ptr :
  wf a mem ps ->
  q ∈ ps -> q <> m_currentPage a ->
  q <= ptr <= q + m_pageSize a ->
  rewindTo a ptr = a.
Proof.
  intros Hwf Hq Hne Hptr.
  destruct (rewindTo_cases a ptr) as [[Hin _]|[_ ->]]; [|done].
  exfalso.
  rewrite (wf_start _ _ _ Hwf), (wf_end _ _ _ Hwf) in Hin.
  destruct (wf_current_cases _ _ _ Hwf) as
    [(-> & _ & _)|(l & _ & Hcur & Hlin & _ & _)]; [by apply elem_of_nil in Hq|].
  rewrite <- Hcur in Hlin.
  destruct (blocks_apart_pair _ ps q (m_currentPage a) (wf_apart _ _ _ Hwf) Hq Hlin Hne);
    unfold sizeofPage in *; lia.
Qed.

Lemma example_alloc2 :
  alloc example_arena example_mem 16300 131072
  = Some (131076, [], example_arena2, example_mem2).
Proof. vm_compute. reflexivity. Qed.

Lemma example_wf2 : wf example_arena2 example_mem2 [65536; 131072].
Proof.
  destruct (alloc_grows example_arena example_mem [65536] 16300 131072)
    as (a' & mem' & Ha & Hwf & _).
  - apply example_wf.
  - simpl. lia.
  - intros [_ Hfit]. simpl in Hfit. lia.
  - apply example_next_malloc_ok.
  - rewrite example_alloc2 in Ha. injection Ha as <- <-. exact Hwf.
Qed.

Lemma rewindTo_ignores_other_pages_witness :
  rewindTo example_arena2 65540 = example_arena2.
Proof.
  apply (rewindTo_ignores_other_pages example_arena2 example_mem2
           [65536; 131072] 65536 65540).
  - apply example_wf2.
  - by left.
  - simpl. lia.
  - simpl. lia.
Defined.

(** * Beyond the claims: how calls compose *)

(** The cursor after a successful [alloc] is the returned pointer plus the
    size. *)
Lemma alloc_cursor a mem ps size buf ptr d a' mem' :
  wf a mem ps -> 0 <= size <= m_maxAllocSize a -> malloc_ok a mem buf ->
  alloc a mem size buf = Some (ptr, d, a', mem') ->
  exists ps', wf a' mem' (ps ++ ps') /\ d = [] /\
              0 < ptr /\ m_next a' = ptr + size /\
              m_pageSize a' = m_pageSize a /\ m_maxAllocSize a' = m_maxAllocSize a /\
              (fits a size -> ptr = m_next a /\ mem' = mem /\
                              m_currentPage a' = m_currentPage a) /\
              (~ fits a size -> ptr = buf + sizeofPage /\ m_currentPage a' = buf).
Proof.
  intros Hwf Hsize Hok Ha.
  destruct (decide (fits a size)) as [Hfit|Hnofit].
  - rewrite (alloc_fits a mem ps) in Ha by done. injection Ha as <- <- <- <-.
    exists []. rewrite app_nil_r.
    pose proof (wf_next_word _ _ _ Hwf). destruct Hfit as [Hn Hle].
    split; [apply wf_bump_cursor; [done|lia|done]|].
    split_and!; try done; [lia|]. intros Hno. by destruct Hno.
  - destruct (alloc_grows a mem ps size buf)
      as (a1 & mem1 & Ha1 & Hwf1 & Hps & Hmax & Hcur & Hnext & _); [done..|].
    rewrite Ha1 in Ha. injection Ha as <- <- <- <-.
    destruct Hok as [[Hb0 _] _].
    exists [buf]. split_and!; try done; unfold sizeofPage; lia.
Qed.

(** X5. Two allocations in a row, the second served from the page the
    first was served from: the second pointer is the first pointer plus the
    first size.  Nothing is left between the two regions, and nothing is
    added for alignment. *)
Theorem consecutive_allocs_are_contiguous a mem ps s1 s2 buf buf' p1 d a1 mem1 :
  wf a mem ps ->
  0 <= s1 <= m_maxAllocSize a -> malloc_ok a mem buf ->
  alloc a mem s1 buf = Some (p1, d, a1, mem1) ->
  0 <= s2 -> m_next a1 + s2 <= m_currentPage a1 + m_pageSize a1 ->
  alloc a1 mem1 s2 buf' = Some (p1 + s1, [], with_next (p1 + s1 + s2) a1, mem1).
Proof.
  intros Hwf Hs1 Hok Ha Hs2 Hroom.
  destruct (alloc_cursor _ _ _ _ _ _ _ _ _ Hwf Hs1 Hok Ha)
    as (ps' & Hwf1 & _ & Hp1 & Hnext & Hps & Hmax & _).
  pose proof (wf_cursor _ _ _ Hwf1) as Hcur.
  pose proof (wf_start _ _ _ Hwf1) as Hstart.
  pose proof (wf_end _ _ _ Hwf1) as Hend.
  pose proof (wf_max _ _ _ Hwf1) as Hmx.
  pose proof (wf_currentPage_range _ _ _ Hwf1) as [Hc0 _].
  assert (m_next a1 <> 0) as Hn by lia.
  specialize (Hcur Hn). rewrite Hstart in Hcur.
  rewrite (alloc_fits a1 mem1 (ps ++ ps')); [by rewrite Hnext|done| |done].
  unfold sizeofPage in *. lia.
Qed.

Lemma consecutive_allocs_are_contiguous_witness :
  alloc example_arena example_mem 7 0
  = Some (65540 + 100, [], with_next (65540 + 100 + 7) example_arena, example_mem).
Proof.
  apply (consecutive_allocs_are_contiguous (LinearAllocator_new 0) ∅ []
           100 7 65536 0 65540 [] example_arena example_mem).
  - apply LinearAllocator_new_default_wf.
  - split; [lia|]. vm_compute. discriminate.
  - apply example_malloc_ok.
  - apply example_alloc.
  - lia.
  - simpl. lia.
Defined.

(** X6. An allocation served from the current page is undone by
    [rewindTo] with the pointer it returned: the arena is again exactly the
    one before the allocation. *)
Theorem alloc_then_rewindTo_restores a mem ps size buf :
  wf a mem ps ->
  0 < size <= m_maxAllocSize a -> fits a size ->
  exists a1,
    alloc a mem size buf = Some (m_next a, [], a1, mem) /\
    rewindTo a1 (m_next a) = a.
Proof.
  intros Hwf Hsize Hfit.
  exists (with_next (m_next a + size) a).
  split; [apply (alloc_fits a mem ps); [done|lia|done]|].
  destruct Hfit as [Hn Hle].
  pose proof (wf_cursor _ _ _ Hwf Hn) as [Hlo _].
  destruct (rewindTo_cases (with_next (m_next a + size) a) (m_next a))
    as [[_ ->]|[Hout _]].
  - by destruct a.
  - exfalso. apply Hout. cbn [with_next m_currentPage].
    change (end_ (with_next (m_next a + size) a) (m_currentPage a))
      with (end_ a (m_currentPage a)).
    rewrite (wf_end _ _ _ Hwf). lia.
Qed.

Lemma alloc_then_rewindTo_restores_witness :
  exists a1,
    alloc example_arena example_mem 200 0 = Some (m_next example_arena, [], a1, example_mem) /\
    rewindTo a1 (m_next example_arena) = example_arena.
Proof.
  apply (alloc_then_rewindTo_restores example_arena example_mem [65536] 200 0).
  - apply example_wf.
  - simpl. lia.
  - split; simpl; lia.
Defined.

(** X7. An allocation that took a new page is not undone by [rewindTo]:
    rewinding to the returned pointer puts the cursor at the usable start of
    the new page, the page stays in the chain and in [memusage()], and the
    same request is then served again from it, at the same pointer. *)
Theorem rewindTo_keeps_new_page a mem ps size buf :
  wf a mem ps ->
  0 < size <= m_maxAllocSize a -> ~ fits a size -> malloc_ok a mem buf ->
  exists a1 mem1 n,
    alloc a mem size buf = Some (start buf, [], a1, mem1) /\
    m_next (rewindTo a1 (start buf)) = start buf /\
    m_currentPage (rewindTo a1 (start buf)) = buf /\
    memusage a mem = Some n /\
    memusage (rewindTo a1 (start buf)) mem1 = Some (n + m_pageSize a) /\
    forall buf', alloc (rewindTo a1 (start buf)) mem1 size buf'
                 = Some (start buf, [], a1, mem1).
Proof.
  intros Hwf Hsize Hnofit Hok.
  destruct (alloc_grows a mem ps size buf)
    as (a1 & mem1 & Ha1 & Hwf1 & Hps & Hmax & Hcur & Hnext & _); [done|lia|done..|].
  destruct Hok as [[Hb0 Hb1] _].
  pose proof (wf_sizes _ _ _ Hwf) as [[Hs0 Hs1] Hm].
  pose proof (wf_max _ _ _ Hwf) as Hmx.
  assert (start buf = buf + sizeofPage) as Hstart.
  { unfold start. apply wrap_small. unfold sizeofPage in *. lia. }
  rewrite Hstart.
  pose proof (rewindTo_wf a1 mem1 _ (buf + sizeofPage) Hwf1) as Hwf2.
  assert (rewindTo a1 (buf + sizeofPage) = with_next (buf + sizeofPage) a1) as Hr.
  { destruct (rewindTo_cases a1 (buf + sizeofPage)) as [[_ ->]|[Hout _]]; [done|].
    exfalso. apply Hout.
    rewrite (wf_start _ _ _ Hwf1), (wf_end _ _ _ Hwf1), Hcur, Hps.
    unfold sizeofPage in *. lia. }
  exists a1, mem1, (m_pageSize a * Z.of_nat (length ps)).
  rewrite Hr in *.
  split_and!; try done.
  - by apply wf_memusage.
  - rewrite (wf_memusage _ mem1 _ Hwf2). cbn [with_next m_pageSize].
    rewrite Hps, length_app. f_equal. simpl. lia.
  - intros buf'.
    rewrite (alloc_fits _ mem1 _ size buf' Hwf2).
    + cbn [with_next m_next]. f_equal. f_equal. rewrite <- Hnext. by destruct a1.
    + cbn [with_next m_maxAllocSize]. lia.
    + split; cbn [with_next m_next m_currentPage m_pageSize];
        rewrite ?Hcur, ?Hps; unfold sizeofPage in *; lia.
Qed.

Lemma rewindTo_keeps_new_page_witness :
  exists a1 mem1 n,
    alloc example_arena example_mem 16300 131072 = Some (start 131072, [], a1, mem1) /\
    m_next (rewindTo a1 (start 131072)) = start 131072 /\
    m_currentPage (rewindTo a1 (start 131072)) = 131072 /\
    memusage example_arena example_mem = Some n /\
    memusage (rewindTo a1 (start 131072)) mem1 = Some (n + m_pageSize example_arena) /\
    forall buf', alloc (rewindTo a1 (start 131072)) mem1 16300 buf'
                 = Some (start 131072, [], a1, mem1).
Proof.
  apply (rewindTo_keeps_new_page example_arena example_mem [65536] 16300 131072).
  - apply example_wf.
  - simpl. lia.
  - intros [_ Hfit]. simpl in Hfit. lia.
  - apply example_next_malloc_ok.
Defined.

(** * Beyond the claims: where the bytes come from *)

(** X8. In every reachable state a successful [alloc] carves the bytes out
    of the page that is current after the call, the tail of the chain; the
    returned region shares no byte with the block of any other page, so what
    was left over in an earlier page is never handed out. *)
Theorem alloc_only_carves_from_tail a mem live size buf ptr d a' mem' :
  reach a mem live ->
  0 <= size <= m_maxAllocSize a -> malloc_ok a mem buf ->
  alloc a mem size buf = Some (ptr, d, a', mem') ->
  in_page a' (m_currentPage a') (ptr, size) /\
  forall q, is_Some (mem' !! q) -> q <> m_currentPage a' ->
            ~ touches_block a' q (ptr, size).
Proof.
  intros Hreach Hsize Hok Ha.
  destruct (reach_inv _ _ _ Hreach) as (ps & Hwf & Han & _).
  destruct (alloc_cursor _ _ _ _ _ _ _ _ _ Hwf Hsize Hok Ha)
    as (ps' & Hwf' & _ & Hptr & Hnext & Hps & Hmax & Hfit & Hnofit).
  assert (m_next a' <> 0) as Hn' by lia.
  pose proof (wf_cursor _ _ _ Hwf' Hn') as [_ Hhi].
  rewrite (wf_end _ _ _ Hwf') in Hhi.
  assert (m_currentPage a' + sizeofPage <= ptr) as Hlo.
  { destruct (decide (fits a size)) as [Hf|Hf].
    - destruct (Hfit Hf) as (-> & _ & ->). destruct Hf as [Hn _].
      pose proof (wf_cursor _ _ _ Hwf Hn) as [Hlo _].
      by rewrite (wf_start _ _ _ Hwf) in Hlo.
    - destruct (Hnofit Hf) as (-> & ->). lia. }
  assert (in_page a' (m_currentPage a') (ptr, size)) as Hin
    by (split; simpl; lia).
  split; [done|]. intros q Hq Hne [Ht1 Ht2]. simpl in Ht1, Ht2.
  destruct (wf_current_cases _ _ _ Hwf') as
    [(_ & Hc0 & _)|(l & _ & Hcur & Hlin & _ & _)].
  - unfold sizeofPage in *. destruct Hin as [Hi1 Hi2]. simpl in Hi1, Hi2.
    apply (wf_dom _ _ _ Hwf') in Hq.
    pose proof (wf_blocks _ _ _ Hwf') as Hbl. rewrite Forall_forall in Hbl.
    destruct (wf_current_cases _ _ _ Hwf) as [(_ & Hca & _)|(l & _ & Hca & _ & [Hl _] & _)].
    + destruct (decide (fits a size)) as [Hf|Hf].
      * destruct Hf as [Hn _]. apply Hn, Han, Hca.
      * destruct (Hnofit Hf) as (_ & Hb). destruct Hok as [[? _] _]. lia.
    + destruct (decide (fits a size)) as [Hf|Hf].
      * destruct (Hfit Hf) as (_ & _ & E). lia.
      * destruct (Hnofit Hf) as (_ & Hb). destruct Hok as [[? _] _]. lia.
  - rewrite <- Hcur in Hlin. apply (wf_dom _ _ _ Hwf') in Hq.
    destruct Hin as [Hi1 Hi2]. simpl in Hi1, Hi2.
    destruct (blocks_apart_pair _ _ q (m_currentPage a') (wf_apart _ _ _ Hwf') Hq Hlin Hne);
      unfold sizeofPage in *; lia.
Qed.

Lemma alloc_only_carves_from_tail_witness :
  in_page example_arena2 (m_currentPage example_arena2) (131076, 16300) /\
  forall q, is_Some (example_mem2 !! q) -> q <> m_currentPage example_arena2 ->
            ~ touches_block example_arena2 q (131076, 16300).
Proof.
  apply (alloc_only_carves_from_tail example_arena example_mem [(65540, 100)]
           16300 131072 131076 [] example_arena2 example_mem2).
  - apply example_reach.
  - simpl. lia.
  - apply example_next_malloc_ok.
  - apply example_alloc2.
Defined.

(** The bytes handed out by a run of successful allocations fit the
    usable ranges of the pages taken, less what is left in the current one. *)
Lemma alloc_run_handed_out a mem log :
  alloc_run a mem log ->
  exists ps,
    wf a mem ps /\ anchored a /\
    (m_next a = 0 -> handed_out log = 0 /\ ps = []) /\
    (m_next a <> 0 ->
     handed_out log + (m_currentPage a + m_pageSize a - m_next a)
     <= m_maxAllocSize a * Z.of_nat (length ps)).
Proof.
  induction 1 as [avg Hwf
                 |a mem log size buf ptr d a' mem' _
                    (ps & Hwf & Han & Hnone & Hsome) Hsize Hok Ha Hptr].
  - exists []. split; [done|]. split; [apply new_anchored|].
    split; [done|]. intros Hn. by simpl in Hn.
  - destruct (Z.lt_ge_cases (m_maxAllocSize a) size) as [Hbig|Hsmall].
    { rewrite alloc_too_large in Ha by done. injection Ha as <- _ _ _. done. }
    pose proof (wf_max _ _ _ Hwf) as Hmx.
    destruct (decide (fits a size)) as [Hfit|Hnofit].
    + rewrite (alloc_fits a mem ps) in Ha; [|done|lia|done].
      injection Ha as <- <- <- <-.
      pose proof Hfit as [Hn Hle]. pose proof (wf_next_word _ _ _ Hwf).
      exists ps. split; [apply wf_bump_cursor; [done|lia|done]|].
      split; [apply (anchored_bump a mem ps); [done|done|lia|done]|].
      cbn [with_next m_currentPage m_next m_pageSize m_maxAllocSize handed_out].
      split; [intros E; lia|]. intros _. specialize (Hsome Hn). lia.
    + destruct (alloc_grows a mem ps size buf)
        as (a1 & mem1 & Ha1 & Hwf1 & Hps & Hmax & Hcur1 & Hnext & _);
        [done|lia|done|done|].
      rewrite Ha1 in Ha. injection Ha as <- <- <- <-.
      destruct Hok as [[Hb0 _] _].
      exists (ps ++ [buf]). split; [done|].
      split; [unfold anchored; rewrite Hcur1, Hnext; unfold sizeofPage; lia|].
      rewrite Hcur1, Hnext, Hps, Hmax, length_app. cbn [handed_out length].
      split; [unfold sizeofPage; lia|]. intros _.
      assert (handed_out log <= m_maxAllocSize a * Z.of_nat (length ps)) as Hold.
      { destruct (decide (m_next a = 0)) as [E|Hn].
        - destruct (Hnone E) as [-> ->]. simpl. lia.
        - specialize (Hsome Hn). pose proof (wf_cursor _ _ _ Hwf Hn) as [_ Hhi].
          rewrite (wf_end _ _ _ Hwf) in Hhi. lia. }
      unfold sizeofPage in *. lia.
Qed.

(** X9. After any run of successful allocations, the bytes handed out plus
    one page header for every page are at most what [memusage()] reports. *)
Theorem handed_out_bytes_below_memusage a mem log :
  alloc_run a mem log ->
  exists n,
    memusage a mem = Some n /\
    handed_out log + sizeofPage * Z.of_nat (size mem) <= n.
Proof.
  intros Hrun.
  destruct (alloc_run_handed_out _ _ _ Hrun) as (ps & Hwf & Han & Hnone & Hsome).
  exists (m_pageSize a * Z.of_nat (length ps)).
  split; [by apply wf_memusage|].
  rewrite (wf_size_mem _ _ _ Hwf).
  pose proof (wf_max _ _ _ Hwf) as Hmx.
  destruct (decide (m_next a = 0)) as [E|Hn].
  - destruct (Hnone E) as [-> ->]. simpl. lia.
  - specialize (Hsome Hn). pose proof (wf_cursor _ _ _ Hwf Hn) as [_ Hhi].
    rewrite (wf_end _ _ _ Hwf) in Hhi. unfold sizeofPage in *. nia.
Qed.

Lemma handed_out_bytes_below_memusage_witness :
  exists n,
    memusage example_arena example_mem = Some n /\
    handed_out [(65536, 100)] + sizeofPage * Z.of_nat (size example_mem) <= n.
Proof.
  apply (handed_out_bytes_below_memusage example_arena example_mem [(65536, 100)]).
  apply example_run.
Defined.

(** * Beyond the claims: the sizes the constructor chooses *)

(** X10. With a hint for which the page size aimed at is a [size_t], the
    usable range of a page is a whole number of objects of the hinted size,
    and at least [MIN_OBJECT_COUNT] of them. *)
Theorem constructor_page_holds_min_objects averageAllocSize :
  0 < averageAllocSize -> ideal_pageSize averageAllocSize < modulus ->
  exists count,
    MIN_OBJECT_COUNT <= count /\
    m_maxAllocSize (LinearAllocator_new averageAllocSize) = count * averageAllocSize.
Proof.
  intros Havg Hfit.
  destruct (constructor_sizes_in_range averageAllocSize) as (Hps & Hmax & _);
    [lia|done|].
  exists (Z.max MIN_OBJECT_COUNT ((TARGET_PAGE_SIZE - sizeofPage) / averageAllocSize)).
  split; [lia|]. rewrite Hmax, Hps. unfold ideal_pageSize.
  destruct (Z.eqb_spec averageAllocSize 0); lia.
Qed.

Lemma constructor_page_holds_min_objects_witness :
  exists count,
    MIN_OBJECT_COUNT <= count /\
    m_maxAllocSize (LinearAllocator_new 48) = count * 48.
Proof.
  apply (constructor_page_holds_min_objects 48).
  - lia.
  - rewrite modulus_eq. vm_compute. reflexivity.
Defined.

(** X11. A hint of at most a quarter of the usable target page gives a
    page no larger than [TARGET_PAGE_SIZE] and less than one object short of
    it; a larger hint (whose page size is still a [size_t]) gives a page of
    exactly [MIN_OBJECT_COUNT] objects, larger than the target. *)
Theorem constructor_page_size_near_target averageAllocSize :
  0 < averageAllocSize -> ideal_pageSize averageAllocSize < modulus ->
  let pageSize := m_pageSize (LinearAllocator_new averageAllocSize) in
  (MIN_OBJECT_COUNT * averageAllocSize <= TARGET_PAGE_SIZE - sizeofPage ->
   TARGET_PAGE_SIZE - averageAllocSize < pageSize <= TARGET_PAGE_SIZE) /\
  (TARGET_PAGE_SIZE - sizeofPage < MIN_OBJECT_COUNT * averageAllocSize ->
   pageSize = MIN_OBJECT_COUNT * averageAllocSize + sizeofPage /\
   TARGET_PAGE_SIZE < pageSize).
Proof.
  intros Havg Hfit pageSize. subst pageSize.
  rewrite new_pageSize_ideal by (done || lia).
  unfold ideal_pageSize, TARGET_PAGE_SIZE, sizeofPage, MIN_OBJECT_COUNT in *.
  destruct (Z.eqb_spec averageAllocSize 0) as [|_]; [lia|].
  change (16384 - 4) with 16380 in *.
  pose proof (Z.div_mod 16380 averageAllocSize) as Hdm.
  pose proof (Z.mod_pos_bound 16380 averageAllocSize Havg) as Hmod.
  set (q := 16380 / averageAllocSize) in *.
  set (m := 16380 mod averageAllocSize) in *.
  specialize (Hdm ltac:(lia)).
  split; intros Hcase.
  - assert (4 <= q) by nia. rewrite Z.max_r by lia. nia.
  - assert (q < 4) by nia. rewrite Z.max_l by lia. lia.
Qed.

Lemma constructor_page_size_near_target_witness :
  let pageSize := m_pageSize (LinearAllocator_new 48) in
  (MIN_OBJECT_COUNT * 48 <= TARGET_PAGE_SIZE - sizeofPage ->
   TARGET_PAGE_SIZE - 48 < pageSize <= TARGET_PAGE_SIZE) /\
  (TARGET_PAGE_SIZE - sizeofPage < MIN_OBJECT_COUNT * 48 ->
   pageSize = MIN_OBJECT_COUNT * 48 + sizeofPage /\
   TARGET_PAGE_SIZE < pageSize).
Proof.
  apply (constructor_page_size_near_target 48).
  - lia.
  - rewrite modulus_eq. vm_compute. reflexivity.
Defined.

(** * Beyond the claims: the methods of Page *)

Lemma wrap_add_l z y : wrap (wrap z + y) = wrap (z + y).
Proof. unfold wrap. apply Zplus_mod_idemp_l. Qed.

Lemma wrap_add_r z y : wrap (z + wrap y) = wrap (z + y).
Proof. unfold wrap. apply Zplus_mod_idemp_r. Qed.

(** X12. [Page::start()] is the address [LinearAllocator::start] computes
    for the page.  [Page::end(n)] lies [n] bytes behind that start: it is
    [LinearAllocator::end] of the page for [n = m_maxAllocSize], and
    [sizeof(Page)] bytes beyond it for [n = m_pageSize]. *)
Theorem Page_methods_against_allocator a p :
  m_maxAllocSize a = wrap (m_pageSize a - sizeofPage) ->
  Page_start p = start p /\
  Page_end p (m_maxAllocSize a) = end_ a p /\
  Page_end p (m_pageSize a) = wrap (end_ a p + sizeofPage).
Proof.
  intros Hmax. unfold Page_end, Page_start, start, end_.
  rewrite Hmax.
  split_and!; repeat (rewrite wrap_add_l || rewrite wrap_add_r);
    rewrite <- ?Z.add_assoc; repeat rewrite wrap_add_l; f_equal; lia.
Qed.

Lemma Page_methods_against_allocator_witness :
  Page_start 65536 = start 65536 /\
  Page_end 65536 (m_maxAllocSize example_arena) = end_ example_arena 65536 /\
  Page_end 65536 (m_pageSize example_arena) = wrap (end_ example_arena 65536 + sizeofPage).
Proof.
  apply (Page_methods_against_allocator example_arena 65536).
  vm_compute. reflexivity.
Defined.

(** * Beyond the claims: what alloc writes, and when it calls malloc *)

(** X13. Whatever [alloc] returns, in whatever state: the head of the
    chain, once set, is not assigned again, and the only page headers
    written are those of the page that was current and of the block
    [malloc] returned. *)
Theorem alloc_frame a mem size buf ptr d a' mem' :
  alloc a mem size buf = Some (ptr, d, a', mem') ->
  (m_pages a <> 0 -> m_pages a' = m_pages a) /\
  (forall q, q <> m_currentPage a -> q <> buf -> mem' !! q = mem !! q).
Proof.
  unfold alloc, ensureNext, newPage.
  destruct (m_maxAllocSize a <? size); [intros [= <- <- <- <-]; done|].
  destruct (negb (m_next a =? 0)
            && (wrap (m_next a + size) <=? end_ a (m_currentPage a)));
    [intros [= <- <- <- <-]; done|].
  destruct (buf =? 0); [done|].
  cbn [with_currentPage m_pages].
  destruct (Z.eqb_spec (m_pages a) 0) as [Hp|Hp];
    destruct (m_currentPage a =? 0); intros [= <- <- <- <-];
    (split; [done|]); intros q Hq Hb;
    unfold Page_setNext, Page_new; by rewrite ?lookup_insert_ne.
Qed.

Lemma alloc_frame_witness :
  (m_pages example_arena <> 0 -> m_pages example_arena2 = m_pages example_arena) /\
  (forall q, q <> m_currentPage example_arena -> q <> 131072 ->
             example_mem2 !! q = example_mem !! q).
Proof.
  apply (alloc_frame example_arena example_mem 16300 131072 131076 []
           example_arena2 example_mem2).
  apply example_alloc2.
Defined.

(** X14. [alloc] calls [malloc] only to take a new page: for a request that
    is too large, or that fits the current page, the outcome is the same
    whatever [malloc] would have returned, a failure included. *)
Theorem alloc_without_malloc a mem ps size buf buf' :
  wf a mem ps -> 0 <= size ->
  m_maxAllocSize a < size \/ fits a size ->
  alloc a mem size buf = alloc a mem size buf'.
Proof.
  intros Hwf Hsize [Hbig|Hfit].
  - by rewrite !alloc_too_large.
  - destruct (Z.lt_ge_cases (m_maxAllocSize a) size) as [Hbig|Hsmall].
    + by rewrite !alloc_too_large.
    + by rewrite !(alloc_fits a mem ps).
Qed.

Lemma alloc_without_malloc_witness :
  alloc example_arena example_mem 200 131072 = alloc example_arena example_mem 200 0.
Proof.
  apply (alloc_without_malloc example_arena example_mem [65536] 200 131072 0).
  - apply example_wf.
  - lia.
  - right. split; simpl; lia.
Defined.
